(** * ConcurCrawler: the scan engine of [scanner.py] and [app.py]

    A shallow embedding of the asynchronous endpoint scanner: the URL
    resolution, the robots.txt gate, the [fetch] coroutine with its
    semaphore and retry, the scheduling loop of [scan_target] and the
    request handling of [api_scan], followed by the properties of the
    specification that were checked against them. *)

From Stdlib Require Import List String Ascii Bool Arith ZArith QArith Lia.
From Stdlib Require Import Permutation Lqa.
Import ListNotations.

Local Close Scope Q_scope.
Local Open Scope list_scope.
Local Open Scope string_scope.

(** ** Exceptions and fallible results *)

(** The exception classes the source distinguishes in its [except] chains.
    [ServerTimeoutError] is aiohttp's class that inherits from both
    [asyncio.TimeoutError] and [aiohttp.ClientError]. *)
Inductive exc_type : Type :=
  | TimeoutError
  | ServerTimeoutError
  | ClientResponseError
  | ClientError
  | ValueError
  | OtherException.

Record exn : Type := mk_exn { exc_class : exc_type; exc_str : string }.

(** [isinstance e C] for the three classes named in [fetch]. *)
Definition is_TimeoutError (e : exn) : bool :=
  match exc_class e with
  | TimeoutError | ServerTimeoutError => true
  | _ => false
  end.

Definition is_ClientResponseError (e : exn) : bool :=
  match exc_class e with
  | ClientResponseError => true
  | _ => false
  end.

Definition is_ClientError (e : exn) : bool :=
  match exc_class e with
  | ServerTimeoutError | ClientResponseError | ClientError => true
  | _ => false
  end.

Inductive result (A : Type) : Type :=
  | Ok (a : A)
  | Raise (e : exn).
Arguments Ok {A} a.
Arguments Raise {A} e.

Definition bind {A B : Type} (r : result A) (f : A -> result B) : result B :=
  match r with
  | Ok a => f a
  | Raise e => Raise e
  end.

Notation "x <- r ;; k" := (bind r (fun x => k))
  (at level 61, r at next level, right associativity).

(** ** Python string operations used by the source *)

Module Str.

Definition nonempty (s : string) : bool :=
  match s with
  | EmptyString => false
  | String _ _ => true
  end.

(** [s.lstrip(chars)] with the character set given as a predicate. *)
Fixpoint lstrip_by (p : ascii -> bool) (s : string) : string :=
  match s with
  | EmptyString => EmptyString
  | String a s' => if p a then lstrip_by p s' else s
  end.

Fixpoint rstrip_by (p : ascii -> bool) (s : string) : string :=
  match s with
  | EmptyString => EmptyString
  | String a s' =>
      match rstrip_by p s' with
      | EmptyString => if p a then EmptyString else String a EmptyString
      | r => String a r
      end
  end.

Definition lstrip (c : ascii) : string -> string := lstrip_by (Ascii.eqb c).
Definition rstrip (c : ascii) : string -> string := rstrip_by (Ascii.eqb c).

(** ASCII white space, as [str.strip()] removes it. *)
Definition isspace (a : ascii) : bool :=
  let n := nat_of_ascii a in
  ((9 <=? n) && (n <=? 13) || (28 <=? n) && (n <=? 32))%nat.

Definition strip (s : string) : string := rstrip_by isspace (lstrip_by isspace s).

Fixpoint contains (c : ascii) (s : string) : bool :=
  match s with
  | EmptyString => false
  | String a s' => Ascii.eqb a c || contains c s'
  end.

Fixpoint remove_by (p : ascii -> bool) (s : string) : string :=
  match s with
  | EmptyString => EmptyString
  | String a s' => if p a then remove_by p s' else String a (remove_by p s')
  end.

Fixpoint forallb (p : ascii -> bool) (s : string) : bool :=
  match s with
  | EmptyString => true
  | String a s' => p a && forallb p s'
  end.

(** [s.split(c, 1)] when [c] occurs in [s]: the parts around its first
    occurrence. *)
Fixpoint split1 (c : ascii) (s : string) : option (string * string) :=
  match s with
  | EmptyString => None
  | String a s' =>
      if Ascii.eqb a c then Some (EmptyString, s')
      else match split1 c s' with
           | Some (x, y) => Some (String a x, y)
           | None => None
           end
  end.

(** The parts around the last occurrence of [c]. *)
Fixpoint rsplit1 (c : ascii) (s : string) : option (string * string) :=
  match s with
  | EmptyString => None
  | String a s' =>
      match rsplit1 c s' with
      | Some (x, y) => Some (String a x, y)
      | None => if Ascii.eqb a c then Some (EmptyString, s') else None
      end
  end.

(** [s.split(c)]. *)
Fixpoint split (c : ascii) (s : string) : list string :=
  match s with
  | EmptyString => [EmptyString]
  | String a s' =>
      if Ascii.eqb a c then EmptyString :: split c s'
      else match split c s' with
           | x :: r => String a x :: r
           | [] => [String a EmptyString]
           end
  end.

(** The longest prefix free of characters satisfying [p], and the rest. *)
Fixpoint span_until (p : ascii -> bool) (s : string) : string * string :=
  match s with
  | EmptyString => (EmptyString, EmptyString)
  | String a s' =>
      if p a then (EmptyString, s)
      else let (x, y) := span_until p s' in (String a x, y)
  end.

Definition isupper (a : ascii) : bool :=
  let n := nat_of_ascii a in ((65 <=? n) && (n <=? 90))%nat.
Definition islower (a : ascii) : bool :=
  let n := nat_of_ascii a in ((97 <=? n) && (n <=? 122))%nat.
Definition isdigit (a : ascii) : bool :=
  let n := nat_of_ascii a in ((48 <=? n) && (n <=? 57))%nat.
Definition isalpha (a : ascii) : bool := isupper a || islower a.

Definition lower_char (a : ascii) : ascii :=
  if isupper a then ascii_of_nat (nat_of_ascii a + 32) else a.

Fixpoint lower (s : string) : string :=
  match s with
  | EmptyString => EmptyString
  | String a s' => String (lower_char a) (lower s')
  end.

Definition startswith (p s : string) : bool := String.prefix p s.

Definition mem (s : string) (l : list string) : bool :=
  existsb (String.eqb s) l.

End Str.

(** ** The URL library: [urllib.parse]

    [urlparse] and [urljoin] are functions of the Python standard library,
    which the source calls at three places.  They are modelled here after
    CPython 3.11 for [str] arguments made of ASCII characters.  A host in
    balanced square brackets is accepted without validating the address
    inside it: the check [_check_bracketed_netloc] of the later 3.11
    releases, which raises [ValueError] unless the brackets hold an IPv6 or
    IPvFuture address, is not modelled, so that [urlsplit] returns here for
    such a host where those releases raise. *)

Module urllib_parse.

Definition uses_relative : list string :=
  [""; "ftp"; "http"; "gopher"; "nntp"; "imap"; "wais"; "file"; "https";
   "shttp"; "mms"; "prospero"; "rtsp"; "rtspu"; "sftp"; "svn"; "svn+ssh";
   "ws"; "wss"].

Definition uses_netloc : list string :=
  [""; "ftp"; "http"; "gopher"; "nntp"; "telnet"; "imap"; "wais"; "file";
   "mms"; "https"; "shttp"; "snews"; "prospero"; "rtsp"; "rtspu"; "rsync";
   "svn"; "svn+ssh"; "sftp"; "nfs"; "git"; "git+ssh"; "ws"; "wss"].

Definition uses_params : list string :=
  [""; "ftp"; "hdl"; "prospero"; "http"; "imap"; "https"; "shttp"; "rtsp";
   "rtspu"; "sip"; "sips"; "mms"; "sftp"; "tel"].

Definition scheme_char (a : ascii) : bool :=
  Str.isalpha a || Str.isdigit a
  || Ascii.eqb a "+" || Ascii.eqb a "-" || Ascii.eqb a ".".

(** Leading C0 control characters and spaces are stripped, and tab, carriage
    return and newline are removed everywhere. *)
Definition c0_control_or_space (a : ascii) : bool :=
  (nat_of_ascii a <=? 32)%nat.

Definition unsafe_url_byte (a : ascii) : bool :=
  let n := nat_of_ascii a in
  ((n =? 9) || (n =? 10) || (n =? 13))%nat.

Record SplitResult : Type := mk_split {
  s_scheme : string; s_netloc : string; s_path : string;
  s_query : string; s_fragment : string }.

Record ParseResult : Type := mk_parse {
  scheme : string; netloc : string; path : string;
  params : string; query : string; fragment : string }.

Definition netloc_delim (a : ascii) : bool :=
  Ascii.eqb a "/" || Ascii.eqb a "?" || Ascii.eqb a "#".

(** The scheme of [url] and what follows its colon, when [url] starts with
    one. *)
Definition split_scheme (url : string) : option (string * string) :=
  match url, Str.split1 ":" url with
  | String a _, Some (pre, rest) =>
      if Str.nonempty pre && Str.isalpha a && Str.forallb scheme_char pre
      then Some (Str.lower pre, rest)
      else None
  | _, _ => None
  end.

Definition urlsplit (url0 default_scheme : string) : result SplitResult :=
  let url := Str.remove_by unsafe_url_byte
               (Str.lstrip_by c0_control_or_space url0) in
  let default_scheme :=
    Str.remove_by unsafe_url_byte
      (Str.rstrip_by c0_control_or_space
         (Str.lstrip_by c0_control_or_space default_scheme)) in
  let (sch, url) :=
    match split_scheme url with
    | Some (s, rest) => (s, rest)
    | None => (default_scheme, url)
    end in
  nl_url <-
    (if Str.startswith "//" url then
       let (nl, rest) :=
         Str.span_until netloc_delim (String.substring 2 (String.length url) url) in
       if (Str.contains "[" nl && negb (Str.contains "]" nl))
          || (Str.contains "]" nl && negb (Str.contains "[" nl))
       then Raise (mk_exn ValueError "Invalid IPv6 URL")
       else Ok (nl, rest)
     else Ok ("", url)) ;;
  let (nl, url) := nl_url : string * string in
  let (url, frag) :=
    match Str.split1 "#" url with
    | Some (u, f) => (u, f)
    | None => (url, "")
    end in
  let (url, qry) :=
    match Str.split1 "?" url with
    | Some (u, q) => (u, q)
    | None => (url, "")
    end in
  Ok (mk_split sch nl url qry frag).

Definition _splitparams (url : string) : string * string :=
  match Str.rsplit1 "/" url with
  | Some (dir, last) =>
      match Str.split1 ";" last with
      | Some (x, y) => (dir ++ "/" ++ x, y)
      | None => (url, "")
      end
  | None =>
      match Str.split1 ";" url with
      | Some (x, y) => (x, y)
      | None => (url, "")
      end
  end.

Definition urlparse_with (url default_scheme : string) : result ParseResult :=
  r <- urlsplit url default_scheme ;;
  let (url', prm) :=
    if Str.mem (s_scheme r) uses_params && Str.contains ";" (s_path r)
    then _splitparams (s_path r)
    else (s_path r, "") in
  Ok (mk_parse (s_scheme r) (s_netloc r) url' prm (s_query r) (s_fragment r)).

Definition urlparse (url : string) : result ParseResult := urlparse_with url "".

Definition urlunsplit (sch nl url qry frag : string) : string :=
  let url :=
    if Str.nonempty nl
       || (Str.nonempty sch && Str.mem sch uses_netloc
           && negb (Str.startswith "//" url))
    then "//" ++ nl ++
         (if Str.nonempty url && negb (Str.startswith "/" url)
          then "/" ++ url else url)
    else url in
  let url := if Str.nonempty sch then sch ++ ":" ++ url else url in
  let url := if Str.nonempty qry then url ++ "?" ++ qry else url in
  if Str.nonempty frag then url ++ "#" ++ frag else url.

Definition urlunparse (p : ParseResult) : string :=
  let url := if Str.nonempty (params p)
             then path p ++ ";" ++ params p else path p in
  urlunsplit (scheme p) (netloc p) url (query p) (fragment p).

(** [segments[1:-1] = filter(None, segments[1:-1])]. *)
Definition filter_middle (segments : list string) : list string :=
  match segments with
  | [] => []
  | [x] => [x]
  | x :: r => (x :: filter Str.nonempty (removelast r) ++ [last r ""])%list
  end.

(** The loop over [segments] that builds [resolved_path]; the accumulator is
    kept in reverse. *)
Fixpoint resolve_segments (segments acc : list string) : list string :=
  match segments with
  | [] => rev acc
  | seg :: rest =>
      if String.eqb seg ".." then resolve_segments rest (tl acc)
      else if String.eqb seg "." then resolve_segments rest acc
      else resolve_segments rest (seg :: acc)
  end.

Definition urljoin (base url : string) : result string :=
  if negb (Str.nonempty base) then Ok url
  else if negb (Str.nonempty url) then Ok base
  else
    b <- urlparse_with base "" ;;
    u <- urlparse_with url (scheme b) ;;
    if negb (String.eqb (scheme u) (scheme b))
       || negb (Str.mem (scheme u) uses_relative)
    then Ok url
    else if Str.mem (scheme u) uses_netloc && Str.nonempty (netloc u)
    then Ok (urlunparse u)
    else
      let nl := if Str.mem (scheme u) uses_netloc then netloc b else netloc u in
      if negb (Str.nonempty (path u)) && negb (Str.nonempty (params u))
      then
        let qry := if Str.nonempty (query u) then query u else query b in
        Ok (urlunparse (mk_parse (scheme u) nl (path b) (params b) qry (fragment u)))
      else
        let base_parts := Str.split "/" (path b) in
        let base_parts :=
          if Str.nonempty (last base_parts "")
          then removelast base_parts else base_parts in
        let segments :=
          if Str.startswith "/" (path u) then Str.split "/" (path u)
          else filter_middle (base_parts ++ Str.split "/" (path u))%list in
        let resolved_path := resolve_segments segments [] in
        let resolved_path :=
          if Str.mem (last segments "") ["."; ".."]
          then (resolved_path ++ [""])%list else resolved_path in
        let joined := String.concat "/" resolved_path in
        Ok (urlunparse
              (mk_parse (scheme u) nl
                 (if Str.nonempty joined then joined else "/")
                 (params u) (query u) (fragment u))).

End urllib_parse.

(** ** Data model *)

(** What [fetch] reads from an [aiohttp.ClientResponse].  Reading
    [content_length] is guarded by its own [try] in the source, so it is a
    fallible field. *)
Record ClientResponse : Type := mk_response {
  resp_status : Z;
  resp_reason : string;
  resp_url : string;
  resp_content_length : result (option Z);
  resp_headers : list (string * string) }.

(** [resp.headers.get(name)]: the first value under [name], compared without
    regard to case. *)
Fixpoint headers_get (name : string) (h : list (string * string)) : option string :=
  match h with
  | [] => None
  | (k, v) :: r =>
      if String.eqb (Str.lower k) (Str.lower name) then Some v
      else headers_get name r
  end.

(** [d[k] = v] on a dict kept as an association list in insertion order. *)
Fixpoint dict_set (k v : string) (d : list (string * string)) : list (string * string) :=
  match d with
  | [] => [(k, v)]
  | (k', v') :: r =>
      if String.eqb k' k then (k', v) :: r else (k', v') :: dict_set k v r
  end.

(** [{k: v for k, v in items}]. *)
Definition dict_of_items (items : list (string * string)) : list (string * string) :=
  fold_left (fun d kv => dict_set (fst kv) (snd kv) d) items [].

(** One entry of the result list.  The source builds three shapes of dict:
    with the keys of a response, with ["skipped"], or with ["error"]. *)
Inductive outcome : Type :=
  | Success (url : string) (status : Z) (reason final_url : string)
            (content_length : option Z) (server : option string)
            (headers : list (string * string))
  | Skipped (url skipped : string)
  | Failed (url error : string).

Definition outcome_url (o : outcome) : string :=
  match o with
  | Success u _ _ _ _ _ _ => u
  | Skipped u _ => u
  | Failed u _ => u
  end.

Definition is_skipped (o : outcome) : bool :=
  match o with
  | Skipped _ _ => true
  | _ => false
  end.

Definition USER_AGENTS : list string :=
  ["Mozilla/5.0 (Windows NT 10.0; Win64; x64) AppleWebKit/537.36 (KHTML, like Gecko) Chrome/141.0.0.0 Safari/537.36";
   "Mozilla/5.0 (Macintosh; Intel Mac OS X 10_15_7) AppleWebKit/605.1.15 (KHTML, like Gecko) Version/16.5 Safari/605.1.15";
   "Mozilla/5.0 (X11; Linux x86_64) AppleWebKit/537.36 (KHTML, like Gecko) Chrome/141.0.0.0 Safari/537.36";
   "curl/8.0.1";
   "python-requests/2.31.0"].

Definition DEFAULT_WORDLIST : list string :=
  ["/"; "index.html"; "home"; "login"; "logout"; "admin"; "dashboard";
   "user"; "api/"; "api/v1/"; "status"; "health"; "ping";
   "robots.txt"; "sitemap.xml"; "favicon.ico"; ".well-known/security.txt";
   "wp-login.php"; "wp-admin"; "admin/login"; "config";
   ".well-known/assetlinks.json"].

Definition TIMEOUT : Z := 10.
Definition CONCURRENCY : Z := 10.

(** The two files differ in the base of the politeness delay. *)
Module scanner.
Definition DELAY_BETWEEN_REQUESTS : Q := (2 # 10)%Q.
End scanner.

Module app.
Definition DELAY_BETWEEN_REQUESTS : Q := (18 # 100)%Q.
End app.

(** ** Coroutines

    A coroutine is the tree of the operations it performs at and between its
    suspension points; the event loop below runs one operation of one task at
    a time. *)
Inductive coro : Type :=
  | Acquire (k : coro)
  | Release (k : coro)
  | Send (url headers : string) (k : coro)
  | Recv (k : result ClientResponse -> coro)
  | Random (k : Q -> coro)
  | Sleep (seconds : Q) (k : coro)
  | Append (o : outcome) (k : coro)
  | Return.

(** [async with session.get(url, headers=headers, ...) as resp]: the request
    goes out, and the coroutine waits for the response or the exception. *)
Definition Get (url headers : string) (k : result ClientResponse -> coro) : coro :=
  Send url headers (Recv k).

(** The [info] dict that [fetch] builds from a response. *)
Definition make_info (url : string) (resp : ClientResponse) : outcome :=
  let text_len :=
    match resp_content_length resp with
    | Ok n => n
    | Raise _ => None
    end in
  Success url (resp_status resp) (resp_reason resp) (resp_url resp)
    text_len (headers_get "Server" (resp_headers resp))
    (dict_of_items (resp_headers resp)).

(** [fetch(session, url, headers, sem, results, retries)], followed by [k].
    [async with sem] is [Acquire] on entry and [Release] on every exit; the
    retry is the recursive call, made inside the [except] clause and so
    inside the [async with sem] block of its caller.  [retries] only counts
    down to zero, so it is a natural number. *)
Fixpoint fetch (delay : Q) (url headers : string) (retries : nat) (k : coro) : coro :=
  Acquire
    (Get url headers (fun r =>
       match r with
       | Ok resp =>
           let info := make_info url resp in
           Append info
             (Random (fun x =>
                Sleep (delay + x * (1 # 10))%Q (Release k)))
       | Raise e =>
           if is_TimeoutError e then
             Append (Failed url "timeout") (Release k)
           else if is_ClientResponseError e then
             Append (Failed url ("response_error: " ++ exc_str e)) (Release k)
           else if is_ClientError e then
             match retries with
             | S retries' =>
                 Sleep (5 # 10)%Q (fetch delay url headers retries' (Release k))
             | O =>
                 Append (Failed url ("client_error: " ++ exc_str e)) (Release k)
             end
           else
             Append (Failed url ("other_error: " ++ exc_str e)) (Release k)
       end)).

(** ** The world outside the program *)

(** A [RobotFileParser] after [read()], reduced to what the source asks of
    it: [can_fetch(useragent, url)]. *)
Record RobotFileParser : Type := mk_rp { can_fetch : string -> string -> bool }.

(** ** The robots.txt library: [urllib.robotparser]

    [RobotFileParser.read] and [RobotFileParser.can_fetch], after CPython
    3.11. *)
Module robotparser.

(** What [urllib.request.urlopen(self.url)] and the reading of the body give
    inside [read()]: a body, with the answers of its parsed rules; an
    [HTTPError] with its status code; or any other exception of [urlopen],
    [f.read()] or [raw.decode("utf-8")]. *)
Inductive fetched : Type :=
  | Body (rules : string -> string -> bool)
  | HTTPError (code : Z)
  | Broken (e : exn).

(** The fields of a [RobotFileParser] that [read] and [can_fetch] use;
    [last_checked] is whether the time of the last fetch is set. *)
Record parser : Type := mk_parser {
  disallow_all : bool;
  allow_all : bool;
  last_checked : bool;
  entries : string -> string -> bool }.

(** [RobotFileParser()]. *)
Definition new : parser := mk_parser false false false (fun _ _ => true).

(** [self.read()]: an [HTTPError] is caught, and sets [disallow_all] for 401
    and 403, [allow_all] for the other codes from 400 to 499, and nothing
    for any other code; a body is parsed, which sets [last_checked]; every
    other exception leaves [read]. *)
Definition read (self : parser) (o : fetched) : result parser :=
  match o with
  | HTTPError code =>
      if ((code =? 401) || (code =? 403))%Z then
        Ok (mk_parser true (allow_all self) (last_checked self) (entries self))
      else if ((400 <=? code) && (code <? 500))%Z then
        Ok (mk_parser (disallow_all self) true (last_checked self)
              (entries self))
      else Ok self
  | Body rules =>
      Ok (mk_parser (disallow_all self) (allow_all self) true rules)
  | Broken e => Raise e
  end.

(** [self.can_fetch(useragent, url)]. *)
Definition can_fetch (self : parser) (useragent url : string) : bool :=
  if disallow_all self then false
  else if allow_all self then true
  else if negb (last_checked self) then false
  else entries self useragent url.

End robotparser.

(** The parser that [can_fetch_robots] holds after [rp.read()], when the
    fetch of robots.txt gave [o]. *)
Definition rp_after_read (o : robotparser.fetched) : result RobotFileParser :=
  self <- robotparser.read robotparser.new o ;;
  Ok (mk_rp (robotparser.can_fetch self)).

(** Everything the scan obtains from outside, indexed by the position [i] of
    the path in the input sequence: the outcome of reading robots.txt for
    that path, the user agent drawn for it, the outcome of each request of
    its task (numbered from 0), and the random number of its pause. *)
Record world : Type := mk_world {
  rp_read : nat -> string -> result RobotFileParser;
  choice : nat -> nat;
  http : nat -> nat -> result ClientResponse;
  random : nat -> Q }.

Inductive event : Type :=
  | EvRobots (i : nat) (robots_url : string)
  | EvAcquire (i : nat)
  | EvRelease (i : nat)
  | EvSend (i : nat) (url headers : string)
  | EvRecv (i : nat) (r : result ClientResponse)
  | EvRandom (i : nat) (x : Q)
  | EvSleep (i : nat) (seconds : Q)
  | EvAppend (i : nat) (o : outcome).

(** ** The robots gate *)

(** [f"{parsed.scheme}://{parsed.netloc}/robots.txt"]. *)
Definition robots_txt_url (base_url : string) : result string :=
  parsed <- urllib_parse.urlparse base_url ;;
  Ok (urllib_parse.scheme parsed ++ "://" ++ urllib_parse.netloc parsed
        ++ "/robots.txt").

(** The URL whose permission [can_fetch_robots] asks for. *)
Definition robots_checked_url (base_url path : string) : result string :=
  urllib_parse.urljoin base_url path.

(** [can_fetch_robots(base_url, path)] for the [i]-th path: the answer and the
    network reads it made.  Any exception in the body gives [True]. *)
Definition can_fetch_robots (w : world) (i : nat) (base_url path : string)
  : bool * list event :=
  match robots_txt_url base_url with
  | Raise _ => (true, [])
  | Ok robots_url =>
      match rp_read w i robots_url with
      | Raise _ => (true, [EvRobots i robots_url])
      | Ok rp =>
          match robots_checked_url base_url path with
          | Raise _ => (true, [EvRobots i robots_url])
          | Ok u => (can_fetch rp "*" u, [EvRobots i robots_url])
          end
      end
  end.

(** ** The event loop

    A task is a coroutine started by [asyncio.gather]: the index of its path,
    the number of responses it has received, the number of [async with sem]
    blocks it is inside, and what it still has to do. *)
Record task : Type := mk_task {
  t_id : nat; t_attempt : nat; t_held : nat; t_code : coro }.

(** The task that [gather] makes of [fetch(session, url, headers, sem,
    results)] for the [i]-th path: [retries] has its default, 1. *)
Definition new_task (delay : Q) (i : nat) (url headers : string) : task :=
  mk_task i 0 0 (fetch delay url headers 1 Return).

(** The state of a scan: the value of the semaphore, the tasks, the shared
    [results] list and the log of what has happened. *)
Record state : Type := mk_state {
  sem : nat; tasks : list task; results : list outcome; log : list event }.

(** One operation of a task, given the value of the semaphore: the new value,
    the task after it, what it appended and the event logged.  A task at
    [async with sem] with the semaphore at zero waits, and a task that has
    returned does nothing. *)
Definition exec (w : world) (value : nat) (t : task)
  : option (nat * task * list outcome * event) :=
  let i := t_id t in
  match t_code t with
  | Acquire k =>
      match value with
      | O => None
      | S v => Some (v, mk_task i (t_attempt t) (S (t_held t)) k, [], EvAcquire i)
      end
  | Release k =>
      Some (S value, mk_task i (t_attempt t) (pred (t_held t)) k, [], EvRelease i)
  | Send url headers k =>
      Some (value, mk_task i (t_attempt t) (t_held t) k, [], EvSend i url headers)
  | Recv k =>
      let r := http w i (t_attempt t) in
      Some (value, mk_task i (S (t_attempt t)) (t_held t) (k r), [], EvRecv i r)
  | Random k =>
      let x := random w i in
      Some (value, mk_task i (t_attempt t) (t_held t) (k x), [], EvRandom i x)
  | Sleep d k =>
      Some (value, mk_task i (t_attempt t) (t_held t) k, [], EvSleep i d)
  | Append o k =>
      Some (value, mk_task i (t_attempt t) (t_held t) k, [o], EvAppend i o)
  | Return => None
  end.

Fixpoint set_nth {A : Type} (j : nat) (x : A) (l : list A) : list A :=
  match l, j with
  | [], _ => []
  | _ :: r, O => x :: r
  | y :: r, S j' => y :: set_nth j' x r
  end.

(** The [j]-th task performs its next operation, if it can. *)
Definition step (w : world) (st : state) (j : nat) : option state :=
  match nth_error (tasks st) j with
  | None => None
  | Some t =>
      match exec w (sem st) t with
      | None => None
      | Some (v, t', os, ev) =>
          Some (mk_state v (set_nth j t' (tasks st))
                  (results st ++ os) (log st ++ [ev]))
      end
  end.

(** The loop runs the tasks in some order; a turn given to a task that
    cannot move changes nothing. *)
Fixpoint run (w : world) (st : state) (sched : list nat) : state :=
  match sched with
  | [] => st
  | j :: rest =>
      run w (match step w st j with Some st' => st' | None => st end) rest
  end.

Definition returned (t : task) : bool :=
  match t_code t with
  | Return => true
  | _ => false
  end.

(** [asyncio.gather] is over when every task has returned. *)
Definition finished (st : state) : bool := forallb returned (tasks st).

(** No task can move although some have not returned. *)
Definition deadlocked (w : world) (st : state) : Prop :=
  finished st = false /\ forall j, step w st j = None.

(** ** The scan *)

(** The absolute URL of a path: the argument of [urljoin] in [scan_target]. *)
Definition resolve (base_url p : string) : result string :=
  urllib_parse.urljoin (Str.rstrip "/" base_url ++ "/") (Str.lstrip "/" p).

(** [random.choice(USER_AGENTS)] for the [i]-th path. *)
Definition choose_user_agent (w : world) (i : nat) : string :=
  nth (choice w i mod List.length USER_AGENTS) USER_AGENTS "".

(** The [for p in paths] loop of [scan_target], from the [i]-th path on.  It
    runs without suspension, so no task moves while it does. *)
Fixpoint scan_loop (delay : Q) (w : world) (base_url : string) (i : nat)
    (paths : list string) (st : state) : result state :=
  match paths with
  | [] => Ok st
  | p :: rest =>
      url <- resolve base_url p ;;
      let (allowed, evs) := can_fetch_robots w i base_url p in
      if negb allowed then
        let o := Skipped url "disallowed_by_robots_txt" in
        scan_loop delay w base_url (S i) rest
          (mk_state (sem st) (tasks st) (results st ++ [o])
             (log st ++ evs ++ [EvAppend i o]))
      else
        let headers := choose_user_agent w i in
        scan_loop delay w base_url (S i) rest
          (mk_state (sem st)
             (tasks st ++ [new_task delay i url headers])
             (results st) (log st ++ evs))
  end.

(** [scan_target] up to the [await] of [asyncio.gather] on the tasks.
    [asyncio.Semaphore] refuses a negative value. *)
Definition scan_start (delay : Q) (w : world) (base_url : string)
    (paths : list string) (concurrency : Z) : result state :=
  if (concurrency <? 0)%Z
  then Raise (mk_exn ValueError "Semaphore initial value must be >= 0")
  else scan_loop delay w base_url 0 paths
         (mk_state (Z.to_nat concurrency) [] [] []).

Inductive scan_outcome : Type :=
  | Returned (rs : list outcome)
  | Raised (e : exn)
  | Running (st : state).

(** [scan_target(base_url, paths, concurrency)] when the event loop runs the
    tasks in the order [sched]: the list it returns, the exception it raises,
    or the state it is still in when [sched] is used up. *)
Definition scan_target (delay : Q) (w : world) (base_url : string)
    (paths : list string) (concurrency : Z) (sched : list nat) : scan_outcome :=
  match scan_start delay w base_url paths concurrency with
  | Raise e => Raised e
  | Ok st0 =>
      let st := run w st0 sched in
      if finished st then Returned (results st) else Running st
  end.

(** ** The HTTP front end: [api_scan] *)

(** The JSON body of a request: an object whose ["target"] is a string,
    whose ["paths"] is a list and whose ["concurrency"] is an integer, where
    they are given.  For these three keys [None] is an absent key or [null]
    ([data.get(key)] gives [None] for both), and an entry of ["paths"] that
    is not a string is [None].  For ["use_default"], which is read with
    [data.get("use_default", True)] and used as a condition only, [None] is
    an absent key and [Some b] a key that is present with a value that
    Python takes for true ([b = true]) or for false ([b = false]: [false],
    [null], [0], an empty string or list).  Bodies of other types (a target
    that is not a string, a concurrency that [int] rejects, a body that is
    not an object) are not described: on them the handler leaves through an
    exception outside its [try]. *)
Record scan_json : Type := mk_json {
  j_target : option string;
  j_use_default : option bool;
  j_paths : option (list (option string));
  j_concurrency : option Z }.

Inductive api_response : Type :=
  | Json200 (rs : list outcome) (checked : nat)
  | Json400 (error : string)
  | Json500 (error : string)
  | NoResponse (st : state).

(** [int(data.get("concurrency") or CONCURRENCY)] followed by
    [max(1, min(50, concurrency))]. *)
Definition requested_concurrency (c : option Z) : Z :=
  match c with
  | None => CONCURRENCY
  | Some n => if (n =? 0)%Z then CONCURRENCY else n
  end.

Definition clamp_concurrency (c : Z) : Z := Z.max 1 (Z.min 50 c).

Definition api_concurrency (data : scan_json) : Z :=
  clamp_concurrency (requested_concurrency (j_concurrency data)).

(** [[p.strip() for p in user_paths if p and isinstance(p, str)]]. *)
Fixpoint sanitize (user_paths : list (option string)) : list string :=
  match user_paths with
  | [] => []
  | Some p :: r => if Str.nonempty p then Str.strip p :: sanitize r else sanitize r
  | None :: r => sanitize r
  end.

(** The choice of the paths: [use_default] is [True] when the key is absent,
    and the default list is used when [use_default or not user_paths]. *)
Definition api_paths (data : scan_json) : list string :=
  let use_default :=
    match j_use_default data with Some b => b | None => true end in
  match j_paths data with
  | Some ((_ :: _) as user_paths) =>
      if use_default then DEFAULT_WORDLIST else sanitize user_paths
  | _ => DEFAULT_WORDLIST
  end.

Definition api_target (target : string) : string :=
  if negb (Str.startswith "http://" target)
     && negb (Str.startswith "https://" target)
  then "https://" ++ target else target.

Definition api_scan (w : world) (data : scan_json) (sched : list nat)
  : api_response :=
  match j_target data with
  | None => Json400 "target is required"
  | Some target =>
      if negb (Str.nonempty target) then Json400 "target is required"
      else
        let target := api_target target in
        let paths := api_paths data in
        let concurrency := api_concurrency data in
        match scan_target app.DELAY_BETWEEN_REQUESTS w target paths
                concurrency sched with
        | Raised e => Json500 ("scan failed: " ++ exc_str e)
        | Returned rs => Json200 rs (List.length paths)
        | Running st => NoResponse st
        end
  end.

(** ** The command line: [load_wordlist_from_file] and [main] *)

(** What [open(path, "r", encoding="utf-8")] and the iteration over the file
    give: the lines of the file, each with its line end, or the exception. *)
Definition filesystem : Type := string -> result (list string).

(** The condition of the comprehension in [load_wordlist_from_file]:
    [l.strip() and not l.startswith("#")]. *)
Definition keep_line (l : string) : bool :=
  Str.nonempty (Str.strip l) && negb (Str.startswith "#" l).

(** [load_wordlist_from_file(path)]; [None] is Python's [None]. *)
Definition load_wordlist_from_file (fs : filesystem) (path : string)
  : option (list string) :=
  match fs path with
  | Ok lines => Some (map Str.strip (filter keep_line lines))
  | Raise _ => None
  end.

(** The choice of [paths] in [main], from [sys.argv], and whether the
    message about the unreadable wordlist is printed. *)
Definition main_paths (fs : filesystem) (argv : list string)
  : list string * bool :=
  match nth_error argv 2 with
  | Some wordlist_file =>
      if Str.nonempty wordlist_file then
        match load_wordlist_from_file fs wordlist_file with
        | Some ((_ :: _) as wl) => (wl, false)
        | _ => (DEFAULT_WORDLIST, true)
        end
      else (DEFAULT_WORDLIST, false)
  | None => (DEFAULT_WORDLIST, false)
  end.

(** How [main] fares up to the return of [asyncio.run]: [Completed] is a
    scan that has returned its results, which [main] goes on to print and
    to save. *)
Inductive main_outcome : Type :=
  | Exit (code : Z)
  | Completed (rs : list outcome) (checked : nat)
  | Crashed (e : exn)
  | Hung (st : state).

(** [main()] of [scanner.py]: the usage exit, the choice of the paths and the
    scan with the default concurrency; [checked] is the [len(paths)] of its
    last message.  The printing and the saving of the results are left out. *)
Definition main (fs : filesystem) (w : world) (argv : list string)
    (sched : list nat) : main_outcome :=
  match argv with
  | _ :: base_url :: _ =>
      let paths := fst (main_paths fs argv) in
      match scan_target scanner.DELAY_BETWEEN_REQUESTS w base_url paths
              CONCURRENCY sched with
      | Returned rs => Completed rs (List.length paths)
      | Raised e => Crashed e
      | Running st => Hung st
      end
  | _ => Exit 1
  end.

(** * Vocabulary of the properties *)

Local Open Scope list_scope.

(** ** What a task still has to do

    The operations a task performs from where it stands, if it is never made
    to wait: its future is fixed by the world, since the responses to its
    requests and its random number are. *)
Fixpoint to_do (w : world) (i att : nat) (c : coro) : list event :=
  match c with
  | Acquire k => EvAcquire i :: to_do w i att k
  | Release k => EvRelease i :: to_do w i att k
  | Send url headers k => EvSend i url headers :: to_do w i att k
  | Recv k =>
      let r := http w i att in EvRecv i r :: to_do w i (S att) (k r)
  | Random k =>
      let x := random w i in EvRandom i x :: to_do w i att (k x)
  | Sleep d k => EvSleep i d :: to_do w i att k
  | Append o k => EvAppend i o :: to_do w i att k
  | Return => []
  end.

Definition task_to_do (w : world) (t : task) : list event :=
  to_do w (t_id t) (t_attempt t) (t_code t).

Definition ev_id (e : event) : nat :=
  match e with
  | EvRobots i _ | EvAcquire i | EvRelease i | EvSend i _ _ | EvRecv i _
  | EvRandom i _ | EvSleep i _ | EvAppend i _ => i
  end.

(** The outcomes that a sequence of events appends to [results]. *)
Fixpoint appended (evs : list event) : list outcome :=
  match evs with
  | [] => []
  | EvAppend _ o :: r => o :: appended r
  | _ :: r => appended r
  end.

Definition is_acquire (e : event) : bool :=
  match e with EvAcquire _ => true | _ => false end.
Definition is_release (e : event) : bool :=
  match e with EvRelease _ => true | _ => false end.
Definition is_send (e : event) : bool :=
  match e with EvSend _ _ _ => true | _ => false end.
Definition is_recv (e : event) : bool :=
  match e with EvRecv _ _ => true | _ => false end.

(** How an operation moves the semaphore and the number of blocks held. *)
Definition sem_effect (e : event) (v v' h h' : nat) : Prop :=
  match e with
  | EvAcquire _ => v = S v' /\ h' = S h
  | EvRelease _ => v' = S v /\ h' = pred h
  | _ => v' = v /\ h' = h
  end.

(** ** What [fetch] does, stated by the kind of each response

    The classification of the specification: which of the four failure
    categories an exception falls in, following the order of the [except]
    clauses. *)
Inductive kind : Type :=
  | Succeeded
  | Timeout
  | ResponseError
  | Transport
  | OtherError.

Definition classify (r : result ClientResponse) : kind :=
  match r with
  | Ok _ => Succeeded
  | Raise e =>
      if is_TimeoutError e then Timeout
      else if is_ClientResponseError e then ResponseError
      else if is_ClientError e then Transport
      else OtherError
  end.

(** The record of an attempt that is not retried. *)
Definition recorded (url : string) (r : result ClientResponse) : outcome :=
  match r with
  | Ok resp => make_info url resp
  | Raise e =>
      match classify r with
      | Timeout => Failed url "timeout"
      | ResponseError => Failed url ("response_error: " ++ exc_str e)%string
      | Transport => Failed url ("client_error: " ++ exc_str e)%string
      | _ => Failed url ("other_error: " ++ exc_str e)%string
      end
  end.

(** The politeness pause of the [i]-th task. *)
Definition pause (delay : Q) (w : world) (i : nat) : Q :=
  (delay + random w i * (1 # 10))%Q.

(** What follows the response of an attempt that is not retried: the record
    and, after a response only, the pause. *)
Definition settle (delay : Q) (w : world) (i : nat) (url : string)
    (r : result ClientResponse) : list event :=
  match r with
  | Ok _ =>
      [EvAppend i (recorded url r); EvRandom i (random w i);
       EvSleep i (pause delay w i)]
  | Raise _ => [EvAppend i (recorded url r)]
  end.

(** Everything the task of the [i]-th path does, in order. *)
Definition fetch_events (delay : Q) (w : world) (i : nat) (url headers : string)
  : list event :=
  let r0 := http w i 0 in
  let r1 := http w i 1 in
  [EvAcquire i; EvSend i url headers; EvRecv i r0] ++
  match classify r0 with
  | Transport =>
      [EvSleep i (5 # 10)%Q; EvAcquire i; EvSend i url headers; EvRecv i r1]
      ++ settle delay w i url r1 ++ [EvRelease i; EvRelease i]
  | _ => settle delay w i url r0 ++ [EvRelease i]
  end.

(** ** What the scheduling loop leaves behind *)

Definition SKIP_TAG : string := "disallowed_by_robots_txt".

(** The answer of the robots gate for the [i]-th path. *)
Definition allowed (w : world) (base_url : string) (i : nat) (p : string) : bool :=
  fst (can_fetch_robots w i base_url p).

(** The skip records of the paths from the [i]-th on, in input order. *)
Fixpoint skips (w : world) (base_url : string) (i : nat) (paths : list string)
  : list outcome :=
  match paths with
  | [] => []
  | p :: rest =>
      match resolve base_url p with
      | Ok url =>
          if allowed w base_url i p then skips w base_url (S i) rest
          else Skipped url SKIP_TAG :: skips w base_url (S i) rest
      | Raise _ => []
      end
  end.

(** The tasks of the paths from the [i]-th on, in input order. *)
Fixpoint spawned (delay : Q) (w : world) (base_url : string) (i : nat)
    (paths : list string) : list task :=
  match paths with
  | [] => []
  | p :: rest =>
      match resolve base_url p with
      | Ok url =>
          if allowed w base_url i p
          then new_task delay i url (choose_user_agent w i)
               :: spawned delay w base_url (S i) rest
          else spawned delay w base_url (S i) rest
      | Raise _ => []
      end
  end.

(** The events of the loop: the robots reads and the skips. *)
Fixpoint gate_log (w : world) (base_url : string) (i : nat) (paths : list string)
  : list event :=
  match paths with
  | [] => []
  | p :: rest =>
      match resolve base_url p with
      | Ok url =>
          snd (can_fetch_robots w i base_url p)
          ++ (if allowed w base_url i p then []
              else [EvAppend i (Skipped url SKIP_TAG)])
          ++ gate_log w base_url (S i) rest
      | Raise _ => []
      end
  end.

(** ** Runs, task by task *)

Definition total {A : Type} (f : A -> nat) (l : list A) : nat :=
  list_sum (map f l).

Definition of_task (i : nat) (e : event) : bool := Nat.eqb (ev_id e) i.

(** What the task of the [i]-th path has done so far. *)
Definition history (i : nat) (tl : list event) : list event :=
  filter (of_task i) tl.

(** The state [st] of a run from [st0], with the events [tl] logged since:
    the results are those of [st0] and what the events appended, every event
    is of a task, and what each task has done and what it still has to do
    make up what it had to do in [st0]. *)
Definition on_course (w : world) (st0 st : state) (tl : list event) : Prop :=
  log st = log st0 ++ tl
  /\ results st = results st0 ++ appended tl
  /\ map t_id (tasks st) = map t_id (tasks st0)
  /\ Forall (fun e => In (ev_id e) (map t_id (tasks st0))) tl
  /\ forall j t0, nth_error (tasks st0) j = Some t0 ->
       exists t, nth_error (tasks st) j = Some t
                 /\ history (t_id t0) tl ++ task_to_do w t = task_to_do w t0.

(** ** The semaphore *)

(** A task inside [h] blocks of [async with sem] that has [evs] to do leaves
    every block it enters, leaves none it is not in, and talks to the network
    only inside a block. *)
Fixpoint bal (h : nat) (evs : list event) : Prop :=
  match evs with
  | [] => h = 0
  | EvAcquire _ :: r => bal (S h) r
  | EvRelease _ :: r => 1 <= h /\ bal (pred h) r
  | EvSend _ _ _ :: r => 1 <= h /\ bal h r
  | EvRecv _ _ :: r => 1 <= h /\ bal h r
  | _ :: r => bal h r
  end.

Definition balanced (w : world) (t : task) : Prop :=
  bal (t_held t) (task_to_do w t).

(** A task whose request is out, waiting for the response. *)
Definition in_flight (t : task) : nat :=
  match t_code t with
  | Recv _ => 1
  | _ => 0
  end.

(** The largest number of slots the task holds at an [async with sem] that
    it has still to pass. *)
Fixpoint nest (h : nat) (evs : list event) : nat :=
  match evs with
  | [] => 0
  | EvAcquire _ :: r => Nat.max h (nest (S h) r)
  | EvRelease _ :: r => nest (pred h) r
  | _ :: r => nest h r
  end.

(** 1 when the first request of the [i]-th task fails at transport level,
    so that the task calls [fetch] again. *)
Definition retrying (w : world) (i : nat) : nat :=
  match classify (http w i 0) with
  | Transport => 1
  | _ => 0
  end.

Definition modest (w : world) (t : task) : Prop :=
  nest (t_held t) (task_to_do w t) <= retrying w (t_id t).

(** The number of outcomes a task has still to append. *)
Definition pending (w : world) (t : task) : nat :=
  List.length (appended (task_to_do w t)).

(** ** The outcome of each path *)

Definition resolves (base_url p : string) : Prop :=
  exists url, resolve base_url p = Ok url.

(** The outcome that the task of the [i]-th path records. *)
Definition final_outcome (w : world) (i : nat) (url : string) : outcome :=
  match classify (http w i 0) with
  | Transport => recorded url (http w i 1)
  | _ => recorded url (http w i 0)
  end.

(** The outcome of each path, in input order. *)
Fixpoint expected (w : world) (base_url : string) (i : nat) (paths : list string)
  : list outcome :=
  match paths with
  | [] => []
  | p :: rest =>
      match resolve base_url p with
      | Ok url =>
          (if allowed w base_url i p then final_outcome w i url
           else Skipped url SKIP_TAG)
          :: expected w base_url (S i) rest
      | Raise _ => []
      end
  end.

(** The operations that remain to be performed. *)
Definition work (w : world) (st : state) : nat :=
  total (fun t => List.length (task_to_do w t)) (tasks st).

(** The number of tasks whose first request fails at transport level. *)
Definition retriers (w : world) (st0 : state) : nat :=
  total (fun t => retrying w (t_id t)) (tasks st0).

(** ** Sample worlds *)

Definition ok_response : ClientResponse :=
  mk_response 200 "OK" "https://example.com/" (Ok (Some 5%Z))
    [("Server", "nginx")].

Definition allow_all : RobotFileParser := mk_rp (fun _ _ => true).

Definition disallow (url : string) : RobotFileParser :=
  mk_rp (fun _ u => negb (String.eqb u url)).

Definition connection_refused : exn := mk_exn ClientError "Cannot connect to host".

(** The host answers every request, and its robots.txt allows everything. *)
Definition world_up : world :=
  mk_world (fun _ _ => Ok allow_all) (fun _ => 3)
    (fun _ _ => Ok ok_response) (fun _ => (1 # 2)%Q).

(** The host refuses every connection, and robots.txt cannot be read. *)
Definition world_down : world :=
  mk_world (fun _ _ => Raise connection_refused) (fun _ => 3)
    (fun _ _ => Raise connection_refused) (fun _ => (1 # 2)%Q).

(** The first request of every task is reset, and the second is answered. *)
Definition world_flaky : world :=
  mk_world (fun _ _ => Ok allow_all) (fun _ => 3)
    (fun _ a => match a with
                | O => Raise connection_refused
                | S _ => Ok ok_response
                end)
    (fun _ => (1 # 2)%Q).

(** Every request times out. *)
Definition world_slow : world :=
  mk_world (fun _ _ => Ok allow_all) (fun _ => 3)
    (fun _ _ => Raise (mk_exn TimeoutError "")) (fun _ => (1 # 2)%Q).

(** The robots.txt of the host disallows one URL. *)
Definition world_robots (url : string) : world :=
  mk_world (fun _ _ => Ok (disallow url)) (fun _ => 3)
    (fun _ _ => Ok ok_response) (fun _ => (1 # 2)%Q).

(** The host answers robots.txt with the status [code] and every other
    request with a page. *)
Definition world_robots_status (code : Z) : world :=
  mk_world (fun _ _ => rp_after_read (robotparser.HTTPError code))
    (fun _ => 3) (fun _ _ => Ok ok_response) (fun _ => (1 # 2)%Q).

(** ** The claims in the words of the specification *)

Definition count_sends (evs : list event) : nat :=
  List.length (filter is_send evs).

(** The claim in the words of the specification: every outcome that the
    task appends is followed by the pause and then by the release. *)
Definition pauses_after_every_outcome (delay : Q) (i : nat) (evs : list event)
  : Prop :=
  forall pre o post,
    evs = pre ++ EvAppend i o :: post ->
    exists x tail,
      post = EvRandom i x :: EvSleep i (delay + x * (1 # 10))%Q
             :: EvRelease i :: tail.

Definition sample_results : list outcome :=
  [Skipped "https://example.com/admin" "disallowed_by_robots_txt";
   make_info "https://example.com/y" ok_response;
   make_info "https://example.com/x" ok_response].

(** ** Further vocabulary *)

(** [d.get(k)] on a dict kept as an association list. *)
Fixpoint dict_get (k : string) (d : list (string * string)) : option string :=
  match d with
  | [] => None
  | (k', v) :: r => if String.eqb k' k then Some v else dict_get k r
  end.

Definition is_robots (e : event) : bool :=
  match e with EvRobots _ _ => true | _ => false end.

(** The requests sent and the outcomes recorded so far for the [k]-th
    path. *)
Definition sends_of (k : nat) (l : list event) : nat :=
  count_sends (history k l).

Definition appends_of (k : nat) (l : list event) : nat :=
  List.length (appended (history k l)).

(** The state in which the tasks of a scan start, when it starts. *)
Definition started (delay : Q) (w : world) (base_url : string)
    (paths : list string) (concurrency : Z) : state :=
  match scan_start delay w base_url paths concurrency with
  | Ok st0 => st0
  | Raise _ => mk_state 0 [] [] []
  end.

(** A string that [strip()] leaves as it is. *)
Definition stripped (s : string) : Prop := Str.strip s = s.

(** An entry of ["paths"] that [api_scan] drops. *)
Definition unusable (e : option string) : Prop :=
  e = None \/ e = Some "".

(** ** Sample files and schedules *)

Definition newline : string := String "010"%char EmptyString.

(** A file system with two wordlists. *)
Definition sample_fs : filesystem :=
  fun path =>
    if String.eqb path "words.txt" then
      Ok [("# common paths" ++ newline)%string; ("admin" ++ newline)%string;
          newline; ("  #hidden" ++ newline)%string;
          (" api/ " ++ newline)%string]
    else if String.eqb path "one.txt" then Ok [("admin" ++ newline)%string]
    else Raise (mk_exn OtherException "No such file or directory").

(** The schedule in which each of the first [n] tasks in turn takes a slot,
    sends its request, receives the response and sleeps. *)
Definition storm (n : nat) : list nat :=
  flat_map (fun j => [j; j; j; j]) (seq 0 n).

(** A task that stands at [async with sem]. *)
Definition waits_for_slot (w : world) (t : task) : Prop :=
  exists rest, task_to_do w t = EvAcquire (t_id t) :: rest.

(** * Properties *)

(** ** What a task still has to do *)

Lemma exec_spec w v t v' t' os e :
  exec w v t = Some (v', t', os, e) ->
  task_to_do w t = e :: task_to_do w t'
  /\ t_id t' = t_id t /\ ev_id e = t_id t /\ os = appended [e]
  /\ sem_effect e v v' (t_held t) (t_held t').
Proof.
  unfold exec, task_to_do. destruct t as [i att h c]; simpl.
  destruct c; simpl; try discriminate;
    try (destruct v; try discriminate);
    intros H; inversion H; subst; simpl; auto 10.
Qed.

(** A task can always move, except at [async with sem] with the semaphore
    at zero and after it has returned. *)
Lemma exec_enabled w v t e rest :
  task_to_do w t = e :: rest ->
  is_acquire e = false \/ 0 < v ->
  exists v' t' os, exec w v t = Some (v', t', os, e).
Proof.
  unfold exec, task_to_do. destruct t as [i att h c]; simpl.
  destruct c; simpl; intros H Hen; inversion H; subst; eauto.
  destruct Hen as [Hen | Hen]; [discriminate |].
  destruct v; [lia | eauto].
Qed.

Lemma to_do_nil_returned w t :
  task_to_do w t = [] <-> returned t = true.
Proof.
  unfold task_to_do, returned. destruct (t_code t); simpl; split;
    intros; try discriminate; auto.
Qed.

Lemma exec_blocked w v t :
  exec w v t = None ->
  returned t = true \/ (v = 0 /\ exists rest, task_to_do w t = EvAcquire (t_id t) :: rest).
Proof.
  unfold exec, task_to_do, returned. destruct (t_code t); simpl;
    try discriminate; auto.
  destruct v; try discriminate. eauto.
Qed.

(** ** What [fetch] does *)

Lemma fetch_to_do delay w i url headers :
  task_to_do w (new_task delay i url headers) = fetch_events delay w i url headers.
Proof.
  unfold task_to_do, new_task, fetch_events, settle, recorded, pause; simpl.
  destruct (http w i 0) as [resp0 | [[] msg0]]; simpl; try reflexivity;
    destruct (http w i 1) as [resp1 | [[] msg1]]; reflexivity.
Qed.

(** ** What the scheduling loop leaves behind *)

Lemma scan_loop_spec delay w base_url paths : forall i st st',
  scan_loop delay w base_url i paths st = Ok st' ->
  sem st' = sem st
  /\ results st' = results st ++ skips w base_url i paths
  /\ tasks st' = tasks st ++ spawned delay w base_url i paths
  /\ log st' = log st ++ gate_log w base_url i paths
  /\ Forall (fun p => exists url, resolve base_url p = Ok url) paths.
Proof.
  induction paths as [| p rest IH]; simpl; intros i st st' H.
  - inversion H; subst. rewrite !app_nil_r. auto.
  - unfold allowed. destruct (resolve base_url p) as [url | e] eqn:Hr;
      simpl in H; [| discriminate].
    destruct (can_fetch_robots w i base_url p) as [ok evs]; simpl in *.
    destruct ok; simpl in H; apply IH in H; simpl in H;
      destruct H as (Hs & Hres & Ht & Hl & Hall);
      rewrite Hs, Hres, Ht, Hl; rewrite <- ?app_assoc; simpl;
      repeat split; eauto.
Qed.

(** The loop raises exactly when some path fails to resolve, and then with
    the error of the first such path. *)
Lemma scan_loop_raises delay w base_url paths : forall i st e,
  scan_loop delay w base_url i paths st = Raise e <->
  exists pre p post,
    paths = pre ++ p :: post
    /\ Forall (fun q => exists url, resolve base_url q = Ok url) pre
    /\ resolve base_url p = Raise e.
Proof.
  induction paths as [| p rest IH]; simpl; intros i st e.
  - split; [discriminate |]. intros (pre & q & post & H & _).
    destruct pre; discriminate.
  - destruct (resolve base_url p) as [url | e'] eqn:Hr; simpl.
    + destruct (can_fetch_robots w i base_url p) as [ok evs].
      destruct ok; simpl; rewrite IH;
        (split;
         [ intros (pre & q & post & H1 & H2 & H3);
           exists (p :: pre), q, post; subst; repeat split; eauto
         | intros (pre & q & post & H1 & H2 & H3);
           destruct pre as [| p0 pre]; simpl in H1; inversion H1; subst;
           [congruence | inversion H2; subst; eauto 7] ]).
    + split.
      * intros H; inversion H; subst. exists [], p, rest. auto.
      * intros (pre & q & post & H1 & H2 & H3).
        destruct pre as [| p0 pre]; simpl in H1; inversion H1; subst.
        -- congruence.
        -- inversion H2 as [| ? ? [url Hu] ?]; subst. congruence.
Qed.

(** ** Lists of tasks *)

Lemma nth_error_set_nth_eq {A : Type} (l : list A) : forall j x y,
  nth_error l j = Some y -> nth_error (set_nth j x l) j = Some x.
Proof.
  induction l as [| a l IH]; intros [| j] x y H; simpl in *;
    try discriminate; eauto.
Qed.

Lemma nth_error_set_nth_neq {A : Type} (l : list A) : forall j j' x,
  j <> j' -> nth_error (set_nth j x l) j' = nth_error l j'.
Proof.
  induction l as [| a l IH]; intros [| j] [| j'] x H; simpl; auto;
    try congruence.
Qed.

Lemma map_set_nth {A B : Type} (f : A -> B) (l : list A) : forall j x y,
  nth_error l j = Some y -> f x = f y -> map f (set_nth j x l) = map f l.
Proof.
  induction l as [| a l IH]; intros [| j] x y H Hf; simpl in *;
    try discriminate.
  - inversion H; subst. now rewrite Hf.
  - f_equal. eauto.
Qed.

Lemma total_set_nth {A : Type} (f : A -> nat) (l : list A) : forall j x y,
  nth_error l j = Some y ->
  total f (set_nth j x l) + f y = total f l + f x.
Proof.
  unfold total.
  induction l as [| a l IH]; intros [| j] x y H; simpl in *;
    try discriminate.
  - inversion H; subst. lia.
  - specialize (IH j x y H). lia.
Qed.

Lemma Forall_set_nth {A : Type} (P : A -> Prop) (l : list A) : forall j x,
  Forall P l -> P x -> Forall P (set_nth j x l).
Proof.
  induction l as [| a l IH]; intros [| j] x Hl Hx; simpl; auto;
    inversion Hl; subst; constructor; auto.
Qed.

Lemma total_le {A : Type} (f g : A -> nat) (l : list A) :
  Forall (fun x => f x <= g x) l -> total f l <= total g l.
Proof.
  unfold total. induction 1; simpl; lia.
Qed.

Lemma total_zero {A : Type} (f : A -> nat) (l : list A) :
  Forall (fun x => f x = 0) l -> total f l = 0.
Proof.
  unfold total. induction 1; simpl; lia.
Qed.

Lemma total_one {A : Type} (f : A -> nat) (l : list A) :
  Forall (fun x => f x = 1) l -> total f l = List.length l.
Proof.
  unfold total. induction 1; simpl; lia.
Qed.

Lemma total_map_id {A : Type} (f : nat -> nat) (g : A -> nat) (l l' : list A) :
  map g l = map g l' ->
  total (fun t => f (g t)) l = total (fun t => f (g t)) l'.
Proof.
  unfold total. intros H.
  rewrite <- (map_map g f l), <- (map_map g f l'). now rewrite H.
Qed.

(** ** Runs of the event loop *)

Lemma step_spec w st j st' :
  step w st j = Some st' ->
  exists t t' e,
    nth_error (tasks st) j = Some t
    /\ tasks st' = set_nth j t' (tasks st)
    /\ log st' = log st ++ [e]
    /\ results st' = results st ++ appended [e]
    /\ task_to_do w t = e :: task_to_do w t'
    /\ t_id t' = t_id t /\ ev_id e = t_id t
    /\ sem_effect e (sem st) (sem st') (t_held t) (t_held t').
Proof.
  unfold step. destruct (nth_error (tasks st) j) as [t |] eqn:Hn;
    [| discriminate].
  destruct (exec w (sem st) t) as [[[[v t'] os] e] |] eqn:He; [| discriminate].
  intros H; inversion H; subst; simpl.
  apply exec_spec in He. destruct He as (H1 & H2 & H3 & H4 & H5).
  exists t, t', e. subst os. auto 10.
Qed.

Lemma run_invariant w (P : state -> Prop) :
  (forall st j st', P st -> step w st j = Some st' -> P st') ->
  forall sched st, P st -> P (run w st sched).
Proof.
  intros Hstep. induction sched as [| j rest IH]; simpl; intros st H; auto.
  apply IH. destruct (step w st j) eqn:Hs; eauto.
Qed.

Lemma run_app w sched1 : forall sched2 st,
  run w st (sched1 ++ sched2) = run w (run w st sched1) sched2.
Proof.
  induction sched1 as [| j rest IH]; simpl; intros; auto.
Qed.

(** A property of single tasks that every operation preserves holds of all
    tasks throughout a run. *)
Lemma task_invariant w (Q : task -> Prop) :
  (forall v t v' t' os e, Q t -> exec w v t = Some (v', t', os, e) -> Q t') ->
  forall sched st, Forall Q (tasks st) -> Forall Q (tasks (run w st sched)).
Proof.
  intros HQ. apply (run_invariant w (fun st => Forall Q (tasks st))).
  intros st j st' H Hs. unfold step in Hs.
  destruct (nth_error (tasks st) j) as [t |] eqn:Hn; [| discriminate].
  destruct (exec w (sem st) t) as [[[[v t'] os] e] |] eqn:He; [| discriminate].
  inversion Hs; subst; simpl. apply Forall_set_nth; auto.
  eapply HQ; eauto. rewrite Forall_forall in H. apply H.
  eapply nth_error_In; eauto.
Qed.

(** The tasks keep their places and their identities. *)
Lemma run_ids w sched st :
  map t_id (tasks (run w st sched)) = map t_id (tasks st).
Proof.
  apply (run_invariant w
           (fun s => map t_id (tasks s) = map t_id (tasks st))); auto.
  intros s j s' H Hs. apply step_spec in Hs.
  destruct Hs as (t & t' & e & Hn & Ht & _ & _ & _ & Hid & _).
  rewrite Ht, <- H. eapply map_set_nth; eauto.
Qed.

(** ** The log of a run, task by task *)

Lemma appended_app l1 l2 : appended (l1 ++ l2) = appended l1 ++ appended l2.
Proof.
  induction l1 as [| e l1 IH]; simpl; auto.
  destruct e; simpl; auto. now rewrite IH.
Qed.

Lemma distinct_ids (l : list task) j j' t t' :
  NoDup (map t_id l) ->
  nth_error l j = Some t -> nth_error l j' = Some t' -> j <> j' ->
  t_id t <> t_id t'.
Proof.
  intros Hnd Hj Hj' Hne Heq. apply Hne.
  rewrite NoDup_nth_error in Hnd. apply Hnd.
  - rewrite length_map. apply nth_error_Some. congruence.
  - rewrite (map_nth_error t_id j l Hj), (map_nth_error t_id j' l Hj').
    now rewrite Heq.
Qed.

Lemma run_on_course w st0 sched :
  NoDup (map t_id (tasks st0)) ->
  exists tl, on_course w st0 (run w st0 sched) tl.
Proof.
  intros Hnd.
  apply (run_invariant w (fun st => exists tl, on_course w st0 st tl)).
  - intros st j st' (tl & Hlog & Hres & Hids & Hev & Hhist) Hs.
    apply step_spec in Hs.
    destruct Hs as (t & t' & e & Hn & Ht & Hl & Hr & Htd & Hid & Heid & _).
    exists (tl ++ [e]). unfold on_course. repeat split.
    + rewrite Hl, Hlog. now rewrite app_assoc.
    + rewrite Hr, Hres, appended_app. now rewrite app_assoc.
    + rewrite Ht, <- Hids. eapply map_set_nth; eauto.
    + apply Forall_app. split; auto. constructor; auto.
      rewrite Heid, <- Hids. apply in_map. eapply nth_error_In; eauto.
    + intros j0 t0 Hj0. destruct (Hhist j0 t0 Hj0) as (tj & Hnj & Hh).
      unfold history in *. rewrite filter_app. simpl.
      destruct (Nat.eq_dec j j0) as [-> | Hne].
      * exists t'. rewrite Ht. split.
        { eapply nth_error_set_nth_eq; eauto. }
        assert (tj = t) by congruence. subst tj.
        assert (Hsame : t_id t = t_id t0).
        { pose proof (map_nth_error t_id j0 _ Hn) as H1.
          pose proof (map_nth_error t_id j0 _ Hj0) as H2.
          rewrite Hids in H1. congruence. }
        unfold of_task. rewrite Heid, Hsame, Nat.eqb_refl.
        rewrite <- app_assoc. simpl. rewrite <- Htd. exact Hh.
      * exists tj. rewrite Ht. split.
        { rewrite nth_error_set_nth_neq; auto. }
        assert (Hdiff : t_id t <> t_id tj).
        { eapply distinct_ids with (l := tasks st); eauto.
          now rewrite Hids. }
        assert (Hsame : t_id tj = t_id t0).
        { pose proof (map_nth_error t_id j0 _ Hnj) as H1.
          pose proof (map_nth_error t_id j0 _ Hj0) as H2.
          rewrite Hids in H1. congruence. }
        unfold of_task. rewrite Heid.
        destruct (Nat.eqb_spec (t_id t) (t_id t0)); [congruence |].
        rewrite app_nil_r. exact Hh.
  - exists []. unfold on_course. rewrite !app_nil_r. repeat split; auto.
    intros j t0 H. exists t0. auto.
Qed.

(** ** The semaphore *)

Lemma balanced_exec w v t v' t' os e :
  balanced w t -> exec w v t = Some (v', t', os, e) -> balanced w t'.
Proof.
  unfold balanced. intros Hb He. apply exec_spec in He.
  destruct He as (Htd & _ & _ & _ & Hs). rewrite Htd in Hb.
  destruct e; simpl in *; destruct Hs as [_ ->]; tauto.
Qed.

Lemma bal_fetch_events delay w i url headers :
  bal 0 (fetch_events delay w i url headers).
Proof.
  unfold fetch_events, settle. simpl.
  destruct (classify (http w i 0)); simpl;
    destruct (http w i 0); simpl; auto;
    destruct (http w i 1); simpl; auto 10.
Qed.

(** The slots taken and the value of the semaphore add up to its size. *)
Lemma run_semaphore w sched st0 :
  Forall (balanced w) (tasks st0) ->
  let st := run w st0 sched in
  Forall (balanced w) (tasks st)
  /\ sem st + total t_held (tasks st) = sem st0 + total t_held (tasks st0).
Proof.
  intros H0.
  apply (run_invariant w (fun st =>
    Forall (balanced w) (tasks st)
    /\ sem st + total t_held (tasks st) = sem st0 + total t_held (tasks st0)));
    auto.
  intros st j st' [Hb Hsum] Hs.
  pose proof (task_invariant w (balanced w) (balanced_exec w) [j] st Hb) as Hb'.
  simpl in Hb'. rewrite Hs in Hb'. split; auto.
  apply step_spec in Hs.
  destruct Hs as (t & t' & e & Hn & Ht & _ & _ & Htd & _ & _ & Heff).
  rewrite Ht. pose proof (total_set_nth t_held (tasks st) j t' t Hn) as Htot.
  assert (Hbt : balanced w t).
  { rewrite Forall_forall in Hb. apply Hb. eapply nth_error_In; eauto. }
  unfold balanced in Hbt. rewrite Htd in Hbt.
  destruct e; simpl in *; lia.
Qed.

Lemma in_flight_held w t : balanced w t -> in_flight t <= t_held t.
Proof.
  unfold balanced, task_to_do, in_flight.
  destruct (t_code t); simpl; intros; lia.
Qed.

(** ** Waiting for a second slot *)

Lemma modest_exec w v t v' t' os e :
  modest w t -> exec w v t = Some (v', t', os, e) -> modest w t'.
Proof.
  unfold modest. intros Hm He. apply exec_spec in He.
  destruct He as (Htd & Hid & _ & _ & Hs). rewrite Htd in Hm. rewrite Hid.
  destruct e; simpl in *; destruct Hs as [_ ->]; lia.
Qed.

Lemma nest_fetch_events delay w i url headers :
  nest 0 (fetch_events delay w i url headers) = retrying w i.
Proof.
  unfold fetch_events, settle, retrying. simpl.
  destruct (classify (http w i 0)); simpl;
    destruct (http w i 0); simpl; auto;
    destruct (http w i 1); simpl; auto.
Qed.

(** ** Counting the results *)

Lemma run_count w sched st0 :
  let st := run w st0 sched in
  List.length (results st) + total (pending w) (tasks st)
  = List.length (results st0) + total (pending w) (tasks st0).
Proof.
  apply (run_invariant w (fun st =>
    List.length (results st) + total (pending w) (tasks st)
    = List.length (results st0) + total (pending w) (tasks st0))); auto.
  intros st j st' H Hs. apply step_spec in Hs.
  destruct Hs as (t & t' & e & Hn & Ht & _ & Hr & Htd & _).
  rewrite Ht, Hr, length_app.
  pose proof (total_set_nth (pending w) (tasks st) j t' t Hn) as Htot.
  unfold pending at 2 in Htot. rewrite Htd in Htot.
  change (e :: task_to_do w t') with ([e] ++ task_to_do w t') in Htot.
  rewrite appended_app, length_app in Htot.
  fold (pending w t') in Htot. lia.
Qed.

Lemma pending_fetch_events delay w i url headers :
  List.length (appended (fetch_events delay w i url headers)) = 1.
Proof.
  unfold fetch_events, settle. simpl.
  destruct (classify (http w i 0)); simpl;
    destruct (http w i 0); simpl; auto;
    destruct (http w i 1); simpl; auto.
Qed.

(** ** The tasks and skips of a scan *)

Lemma spawned_spec delay w base_url paths : forall i t,
  In t (spawned delay w base_url i paths) ->
  exists k p url,
    nth_error paths k = Some p /\ resolve base_url p = Ok url
    /\ allowed w base_url (i + k) p = true
    /\ t = new_task delay (i + k) url (choose_user_agent w (i + k)).
Proof.
  induction paths as [| p rest IH]; simpl; intros i t H; [tauto |].
  destruct (resolve base_url p) as [url | e] eqn:Hr; [| destruct H].
  destruct (allowed w base_url i p) eqn:Ha.
  - destruct H as [<- | H].
    + exists 0, p, url. rewrite Nat.add_0_r. auto.
    + destruct (IH _ _ H) as (k & q & u & H1 & H2 & H3 & H4).
      exists (S k), q, u. rewrite Nat.add_succ_r. auto.
  - destruct (IH _ _ H) as (k & q & u & H1 & H2 & H3 & H4).
    exists (S k), q, u. rewrite Nat.add_succ_r. auto.
Qed.

Lemma skips_spec w base_url paths : forall i o,
  In o (skips w base_url i paths) ->
  exists k p url,
    nth_error paths k = Some p /\ resolve base_url p = Ok url
    /\ allowed w base_url (i + k) p = false
    /\ o = Skipped url SKIP_TAG.
Proof.
  induction paths as [| p rest IH]; simpl; intros i o H; [tauto |].
  destruct (resolve base_url p) as [url | e] eqn:Hr; [| destruct H].
  destruct (allowed w base_url i p) eqn:Ha.
  - destruct (IH _ _ H) as (k & q & u & H1 & H2 & H3 & H4).
    exists (S k), q, u. rewrite Nat.add_succ_r. auto.
  - destruct H as [<- | H].
    + exists 0, p, url. rewrite Nat.add_0_r. auto.
    + destruct (IH _ _ H) as (k & q & u & H1 & H2 & H3 & H4).
      exists (S k), q, u. rewrite Nat.add_succ_r. auto.
Qed.

Lemma spawned_ids_ge delay w base_url paths i t :
  In t (spawned delay w base_url i paths) -> i <= t_id t.
Proof.
  intros H. apply spawned_spec in H.
  destruct H as (k & p & url & _ & _ & _ & ->). simpl. lia.
Qed.

Lemma spawned_nodup delay w base_url paths : forall i,
  NoDup (map t_id (spawned delay w base_url i paths)).
Proof.
  induction paths as [| p rest IH]; simpl; intros i; [constructor |].
  destruct (resolve base_url p); [| constructor].
  destruct (allowed w base_url i p); auto.
  simpl. constructor; auto.
  rewrite in_map_iff. intros (t & Hid & Hin).
  apply spawned_ids_ge in Hin. lia.
Qed.

Lemma plan_length delay w base_url paths : forall i,
  Forall (resolves base_url) paths ->
  List.length (skips w base_url i paths)
  + List.length (spawned delay w base_url i paths) = List.length paths.
Proof.
  induction paths as [| p rest IH]; simpl; intros i H; auto.
  inversion H as [| ? ? [url Hu] Hrest]; subst. rewrite Hu.
  specialize (IH (S i) Hrest).
  destruct (allowed w base_url i p); simpl; lia.
Qed.

Lemma scan_start_spec delay w base_url paths concurrency st0 :
  scan_start delay w base_url paths concurrency = Ok st0 ->
  (0 <= concurrency)%Z
  /\ sem st0 = Z.to_nat concurrency
  /\ results st0 = skips w base_url 0 paths
  /\ tasks st0 = spawned delay w base_url 0 paths
  /\ log st0 = gate_log w base_url 0 paths
  /\ Forall (resolves base_url) paths.
Proof.
  unfold scan_start. destruct (Z.ltb_spec concurrency 0) as [Hlt | Hge];
    [discriminate |].
  intros H. apply scan_loop_spec in H. simpl in H. tauto.
Qed.

Lemma spawned_to_do delay w base_url paths i t :
  In t (spawned delay w base_url i paths) ->
  exists url headers,
    t_held t = 0
    /\ task_to_do w t = fetch_events delay w (t_id t) url headers.
Proof.
  intros H. apply spawned_spec in H.
  destruct H as (k & p & url & _ & _ & _ & ->).
  exists url, (choose_user_agent w (i + k)). split; auto.
  apply fetch_to_do.
Qed.

(** Everything that holds of a scan at any moment of its run. *)
Lemma scan_state delay w base_url paths concurrency st0 sched :
  scan_start delay w base_url paths concurrency = Ok st0 ->
  let st := run w st0 sched in
  (exists tl, on_course w st0 st tl)
  /\ Forall (balanced w) (tasks st)
  /\ Forall (modest w) (tasks st)
  /\ sem st + total t_held (tasks st) = Z.to_nat concurrency
  /\ List.length (results st) + total (pending w) (tasks st)
     = List.length paths.
Proof.
  intros H. pose proof (scan_start_spec _ _ _ _ _ _ H)
    as (Hc & Hsem & Hres & Htasks & Hlog & Hall).
  assert (Hb0 : Forall (balanced w) (tasks st0)).
  { rewrite Htasks, Forall_forall. intros t Ht.
    destruct (spawned_to_do _ _ _ _ _ _ Ht) as (u & h & Hh & Htd).
    unfold balanced. rewrite Hh, Htd. apply bal_fetch_events. }
  assert (Hm0 : Forall (modest w) (tasks st0)).
  { rewrite Htasks, Forall_forall. intros t Ht.
    destruct (spawned_to_do _ _ _ _ _ _ Ht) as (u & h & Hh & Htd).
    unfold modest. rewrite Hh, Htd, nest_fetch_events. auto. }
  assert (Hh0 : total t_held (tasks st0) = 0).
  { apply total_zero. rewrite Htasks, Forall_forall. intros t Ht.
    destruct (spawned_to_do _ _ _ _ _ _ Ht) as (u & h & Hh & _). auto. }
  assert (Hp0 : total (pending w) (tasks st0) = List.length (tasks st0)).
  { apply total_one. rewrite Htasks, Forall_forall. intros t Ht.
    destruct (spawned_to_do _ _ _ _ _ _ Ht) as (u & h & _ & Htd).
    unfold pending. rewrite Htd. apply pending_fetch_events. }
  intros st. split; [| split; [| split; [| split]]].
  - apply run_on_course. rewrite Htasks. apply spawned_nodup.
  - apply (run_semaphore w sched st0 Hb0).
  - apply task_invariant; auto. apply modest_exec.
  - destruct (run_semaphore w sched st0 Hb0) as [_ Hs]. fold st in Hs. lia.
  - pose proof (run_count w sched st0) as Hcnt. fold st in Hcnt.
    rewrite Hcnt, Hp0, Hres, Htasks. apply plan_length. auto.
Qed.

(** ** The results of a finished scan, path by path *)

Lemma flat_map_nil {A B : Type} (l : list A) :
  flat_map (fun _ : A => @nil B) l = [].
Proof. induction l; simpl; auto. Qed.

Lemma flat_map_agree {A B : Type} (f g : A -> list B) (l : list A) :
  (forall x, In x l -> f x = g x) -> flat_map f l = flat_map g l.
Proof.
  induction l as [| a l IH]; simpl; intros H; auto.
  rewrite (H a), IH; auto.
Qed.

(** One more outcome under the identity [i0] is one more outcome overall. *)
Lemma flat_map_one_more (F F' : nat -> list outcome) (i0 : nat) (o : outcome) :
  F i0 = o :: F' i0 ->
  (forall i, i <> i0 -> F i = F' i) ->
  forall ids, NoDup ids -> In i0 ids ->
  Permutation (o :: flat_map F' ids) (flat_map F ids).
Proof.
  intros H0 Hne. induction ids as [| a r IH]; simpl; intros Hnd Hin; [tauto |].
  inversion Hnd as [| ? ? Hnotin Hnd']; subst.
  destruct (Nat.eq_dec a i0) as [-> | Ha].
  - rewrite H0. simpl. constructor.
    apply Permutation_app_head.
    assert (Heq : flat_map F' r = flat_map F r).
    { apply flat_map_agree. intros i Hi. symmetry. apply Hne.
      intros ->. contradiction. }
    now rewrite Heq.
  - destruct Hin as [-> | Hin]; [congruence |].
    rewrite (Hne a Ha).
    transitivity (F' a ++ o :: flat_map F' r).
    + apply Permutation_middle.
    + apply Permutation_app_head. auto.
Qed.

(** The outcomes appended during a run are those appended by its tasks. *)
Lemma appended_by_task (ids : list nat) :
  NoDup ids ->
  forall tl, Forall (fun e => In (ev_id e) ids) tl ->
  Permutation (appended tl) (flat_map (fun i => appended (history i tl)) ids).
Proof.
  intros Hnd. induction tl as [| e tl IH]; intros Hall.
  - simpl. now rewrite flat_map_nil.
  - inversion Hall as [| ? ? He Hall']; subst. specialize (IH Hall').
    destruct e; simpl in *;
      try (etransitivity; [exact IH |];
           match goal with
           | |- Permutation ?a ?b => assert (Heq : a = b); [| now rewrite Heq]
           end;
           apply flat_map_ext; intros a; unfold history; simpl;
           unfold of_task; simpl; now destruct (Nat.eqb _ a)).
    etransitivity; [apply perm_skip; exact IH |].
    apply flat_map_one_more with (i0 := i); auto.
    + unfold history, of_task. simpl. now rewrite Nat.eqb_refl.
    + intros j Hj. unfold history, of_task. simpl.
      destruct (Nat.eqb_spec i j); [congruence | reflexivity].
Qed.

Lemma appended_fetch_events delay w i url headers :
  appended (fetch_events delay w i url headers) = [final_outcome w i url].
Proof.
  unfold fetch_events, settle, final_outcome. simpl.
  destruct (classify (http w i 0)); simpl;
    destruct (http w i 0); simpl; auto;
    destruct (http w i 1); simpl; auto.
Qed.

Lemma expected_plan delay w base_url paths : forall i,
  Permutation
    (skips w base_url i paths
     ++ flat_map (fun t => appended (task_to_do w t))
          (spawned delay w base_url i paths))
    (expected w base_url i paths).
Proof.
  induction paths as [| p rest IH]; simpl; intros i; auto.
  destruct (resolve base_url p) as [url | e]; simpl; auto.
  destruct (allowed w base_url i p); cbn [flat_map app].
  - rewrite fetch_to_do, appended_fetch_events. cbn [app].
    etransitivity; [symmetry; apply Permutation_middle |].
    apply perm_skip. apply IH.
  - apply perm_skip. apply IH.
Qed.

Lemma expected_length w base_url paths : forall i,
  Forall (resolves base_url) paths ->
  List.length (expected w base_url i paths) = List.length paths.
Proof.
  induction paths as [| p rest IH]; simpl; intros i H; auto.
  inversion H as [| ? ? [url Hu] Hrest]; subst. rewrite Hu. simpl. auto.
Qed.

Lemma flat_map_map {A B C : Type} (g : A -> B) (f : B -> list C) (l : list A) :
  flat_map f (map g l) = flat_map (fun x => f (g x)) l.
Proof. induction l; simpl; auto. now rewrite IHl. Qed.

Lemma finished_to_do w st t :
  finished st = true -> In t (tasks st) -> task_to_do w t = [].
Proof.
  unfold finished. rewrite forallb_forall. intros H Hin.
  apply to_do_nil_returned. auto.
Qed.

(** When the scan has finished, its results are the expected outcomes in
    some order. *)
Lemma finished_results delay w base_url paths concurrency st0 sched :
  scan_start delay w base_url paths concurrency = Ok st0 ->
  finished (run w st0 sched) = true ->
  Permutation (results (run w st0 sched)) (expected w base_url 0 paths).
Proof.
  intros Hstart Hfin.
  pose proof (scan_start_spec _ _ _ _ _ _ Hstart)
    as (_ & _ & Hres & Htasks & _ & _).
  destruct (scan_state _ _ _ _ _ _ sched Hstart)
    as ((tl & _ & Hr & Hids & Hev & Hhist) & _).
  rewrite Hr, Hres.
  etransitivity; [| apply (expected_plan delay)].
  apply Permutation_app_head.
  etransitivity.
  { apply (appended_by_task (map t_id (tasks st0))); auto.
    rewrite Htasks. apply spawned_nodup. }
  rewrite flat_map_map, <- Htasks.
  match goal with
  | |- Permutation ?a ?b => assert (Heq : a = b); [| now rewrite Heq]
  end.
  apply flat_map_agree. intros t0 Hin.
  destruct (In_nth_error _ _ Hin) as [j Hj].
  destruct (Hhist j t0 Hj) as (t & Hn & Hh).
  rewrite (finished_to_do w _ t Hfin) in Hh
    by (eapply nth_error_In; eauto).
  rewrite app_nil_r in Hh. now rewrite Hh.
Qed.

(** ** Running to the end *)

Lemma step_work w st j st' :
  step w st j = Some st' -> work w st = S (work w st').
Proof.
  intros Hs. apply step_spec in Hs.
  destruct Hs as (t & t' & e & Hn & Ht & _ & _ & Htd & _).
  unfold work. rewrite Ht.
  pose proof (total_set_nth (fun t => List.length (task_to_do w t))
                (tasks st) j t' t Hn) as Htot.
  simpl in Htot. rewrite Htd in Htot. simpl in Htot. lia.
Qed.

Lemma work_zero_finished w st : work w st = 0 -> finished st = true.
Proof.
  unfold work, total, finished. induction (tasks st) as [| t l IH]; simpl; auto.
  intros H. apply andb_true_intro. split.
  - apply (to_do_nil_returned w).
    destruct (task_to_do w t); simpl in *; auto; lia.
  - apply IH. lia.
Qed.

Lemma exec_decide w v (l : list task) :
  (exists j t r, nth_error l j = Some t /\ exec w v t = Some r)
  \/ (forall j t, nth_error l j = Some t -> exec w v t = None).
Proof.
  induction l as [| a l IH].
  - right. intros [| j] t H; discriminate.
  - destruct (exec w v a) as [r |] eqn:Ha.
    + left. exists 0, a, r. auto.
    + destruct IH as [(j & t & r & Hn & He) | Hnone].
      * left. exists (S j), t, r. auto.
      * right. intros [| j] t H; simpl in H; eauto. congruence.
Qed.

Lemma step_decide w st :
  (exists j st', step w st j = Some st')
  \/ (forall t, In t (tasks st) -> exec w (sem st) t = None).
Proof.
  destruct (exec_decide w (sem st) (tasks st))
    as [(j & t & [[[v t'] os] e] & Hn & He) | Hnone].
  - left. exists j. unfold step. rewrite Hn, He. eauto.
  - right. intros t Hin. destruct (In_nth_error _ _ Hin) as [j Hj]. eauto.
Qed.

(** With fewer such tasks than slots, some task can always move until all
    have returned. *)
Lemma no_deadlock delay w base_url paths concurrency st0 sched :
  scan_start delay w base_url paths concurrency = Ok st0 ->
  retriers w st0 < Z.to_nat concurrency ->
  let st := run w st0 sched in
  finished st = true \/ exists j st', step w st j = Some st'.
Proof.
  intros Hstart Hfew st.
  destruct (step_decide w st) as [Hstep | Hnone]; [now right |].
  destruct (finished st) eqn:Hfin; [now left | exfalso].
  destruct (scan_state _ _ _ _ _ _ sched Hstart)
    as (_ & Hbal & Hmod & Hsem & _). fold st in Hbal, Hmod, Hsem.
  assert (Hzero : sem st = 0).
  { unfold finished in Hfin.
    assert (Hex : exists t, In t (tasks st) /\ returned t = false).
    { clear - Hfin. induction (tasks st) as [| t l IH]; simpl in *;
        [discriminate |].
      destruct (returned t) eqn:Hr; simpl in Hfin.
      - destruct (IH Hfin) as (t' & Hin & Hr'). eauto.
      - eauto. }
    destruct Hex as (t & Hin & Hr).
    destruct (exec_blocked w _ t (Hnone t Hin)) as [Hret | [Hz _]];
      [congruence | exact Hz]. }
  assert (Hle : total t_held (tasks st)
                <= total (fun t => retrying w (t_id t)) (tasks st)).
  { apply total_le. rewrite Forall_forall. intros t Hin.
    rewrite Forall_forall in Hbal, Hmod.
    specialize (Hbal t Hin). specialize (Hmod t Hin).
    unfold balanced in Hbal. unfold modest in Hmod.
    destruct (exec_blocked w _ t (Hnone t Hin)) as [Hret | [_ [rest Hr]]].
    - apply (to_do_nil_returned w) in Hret. rewrite Hret in Hbal.
      simpl in Hbal. lia.
    - rewrite Hr in Hmod. simpl in Hmod. lia. }
  rewrite (total_map_id (retrying w) t_id (tasks st) (tasks st0)) in Hle
    by apply run_ids.
  unfold retriers in Hfew. lia.
Qed.

Lemma scan_completes delay w base_url paths concurrency st0 :
  scan_start delay w base_url paths concurrency = Ok st0 ->
  retriers w st0 < Z.to_nat concurrency ->
  forall sched, exists sched',
    finished (run w st0 (sched ++ sched')) = true.
Proof.
  intros Hstart Hfew.
  assert (H : forall n sched, work w (run w st0 sched) <= n ->
                exists sched', finished (run w st0 (sched ++ sched')) = true).
  { induction n as [| n IH]; intros sched Hn.
    - exists []. rewrite app_nil_r. apply (work_zero_finished w). lia.
    - destruct (no_deadlock _ _ _ _ _ _ sched Hstart Hfew)
        as [Hfin | (j & st' & Hs)].
      + exists []. now rewrite app_nil_r.
      + assert (Hrun : run w st0 (sched ++ [j]) = st').
        { rewrite run_app. simpl. now rewrite Hs. }
        destruct (IH (sched ++ [j])) as [sched' Hdone].
        * rewrite Hrun. apply step_work in Hs. lia.
        * exists (j :: sched'). rewrite <- app_assoc in Hdone. exact Hdone. }
  intros sched. eapply H. reflexivity.
Qed.

(** ** C3: the robots gate when robots.txt cannot be fetched *)

(** When reading robots.txt raises (the fetch or the decoding inside
    [rp.read()] raises in any way), [can_fetch_robots] answers [True], and
    the file has been requested exactly once: there is no second read. *)
Theorem robots_gate_fails_open w i base_url path robots_url e :
  robots_txt_url base_url = Ok robots_url ->
  rp_read w i robots_url = Raise e ->
  can_fetch_robots w i base_url path = (true, [EvRobots i robots_url]).
Proof.
  intros Hu Hr. unfold can_fetch_robots. now rewrite Hu, Hr.
Qed.

Lemma robots_gate_fails_open_witness :
  can_fetch_robots world_down 0 "https://example.com" "admin"
  = (true, [EvRobots 0 "https://example.com/robots.txt"]).
Proof.
  apply (robots_gate_fails_open world_down 0 "https://example.com" "admin"
           "https://example.com/robots.txt" connection_refused);
    reflexivity.
Defined.

(** Whatever raises in its body, the gate allows, and it never reads
    robots.txt more than once. *)
Lemma robots_gate_total w i base_url path :
  (forall e, robots_txt_url base_url = Raise e ->
     can_fetch_robots w i base_url path = (true, []))
  /\ (forall e, robots_checked_url base_url path = Raise e ->
        allowed w base_url i path = true)
  /\ List.length (snd (can_fetch_robots w i base_url path)) <= 1
  /\ Forall (fun ev => exists u, ev = EvRobots i u)
       (snd (can_fetch_robots w i base_url path)).
Proof.
  unfold allowed, can_fetch_robots.
  destruct (robots_txt_url base_url) as [u |]; simpl.
  - destruct (rp_read w i u); simpl.
    + destruct (robots_checked_url base_url path); simpl;
        repeat split; try discriminate; eauto.
    + repeat split; try discriminate; eauto.
  - repeat split; auto.
Qed.

(** *** robots.txt that the server refuses to serve *)

(** C3 fails on the code.  When the server answers the request for
    robots.txt with 401, 403 or a status outside 400..499 (a 500 or a 503,
    say), [rp.read()] does not raise: it swallows the [HTTPError], and
    [rp.can_fetch] then answers [False] for every URL.  [can_fetch_robots]
    has nothing to catch and returns [False]: on this failure to fetch
    robots.txt the gate fails closed. *)
Theorem robots_gate_fails_closed w i base_url path robots_url u code :
  robots_txt_url base_url = Ok robots_url ->
  robots_checked_url base_url path = Ok u ->
  rp_read w i robots_url = rp_after_read (robotparser.HTTPError code) ->
  (code = 401 \/ code = 403 \/ code < 400 \/ 500 <= code)%Z ->
  can_fetch_robots w i base_url path = (false, [EvRobots i robots_url]).
Proof.
  intros Hu Hc Hr Hcode. unfold can_fetch_robots. rewrite Hu, Hr, Hc.
  unfold rp_after_read, robotparser.read. simpl.
  destruct ((code =? 401) || (code =? 403))%Z eqn:Hd; [reflexivity |].
  apply orb_false_iff in Hd. destruct Hd as [H1 H3].
  apply Z.eqb_neq in H1. apply Z.eqb_neq in H3.
  destruct ((400 <=? code) && (code <? 500))%Z eqn:Ha; [| reflexivity].
  apply andb_true_iff in Ha. destruct Ha as [Hlo Hhi].
  apply Z.leb_le in Hlo. apply Z.ltb_lt in Hhi. lia.
Qed.

Lemma robots_gate_fails_closed_witness :
  can_fetch_robots (world_robots_status 503) 0 "https://example.com" "admin"
  = (false, [EvRobots 0 "https://example.com/robots.txt"]).
Proof.
  apply (robots_gate_fails_closed (world_robots_status 503) 0
           "https://example.com" "admin" "https://example.com/robots.txt"
           "https://example.com/admin" 503);
    [reflexivity | reflexivity | reflexivity | lia].
Defined.

(** What the scan makes of it: every path is skipped as disallowed, and
    nothing is requested. *)
Lemma server_error_skips_every_path :
  scan_target scanner.DELAY_BETWEEN_REQUESTS (world_robots_status 503)
    "https://example.com" ["admin"; "login"] 10 []
  = Returned [Skipped "https://example.com/admin" SKIP_TAG;
              Skipped "https://example.com/login" SKIP_TAG].
Proof. vm_compute. reflexivity. Qed.

(** The other failures to fetch robots.txt: a code from 400 to 499 other
    than 401 and 403 allows everything, and so does every exception that
    leaves [rp.read()]. *)
Lemma robots_gate_by_fetch w i base_url path robots_url u o :
  robots_txt_url base_url = Ok robots_url ->
  robots_checked_url base_url path = Ok u ->
  rp_read w i robots_url = rp_after_read o ->
  can_fetch_robots w i base_url path
  = (match o with
     | robotparser.Body rules => rules "*"%string u
     | robotparser.HTTPError code =>
         ((400 <=? code) && (code <? 500)
          && negb ((code =? 401) || (code =? 403)))%Z
     | robotparser.Broken _ => true
     end, [EvRobots i robots_url]).
Proof.
  intros Hu Hc Hr. unfold can_fetch_robots. rewrite Hu, Hr, Hc.
  destruct o as [rules | code | e]; try reflexivity.
  unfold rp_after_read, robotparser.read, robotparser.can_fetch.
  destruct (code =? 401)%Z, (code =? 403)%Z, (400 <=? code)%Z, (code <? 500)%Z;
    reflexivity.
Qed.

(** ** C9: the concurrency limit of [api_scan] *)

(** C9, as stated, fails: a request for 0 does not use 1 but the default. *)
Lemma concurrency_zero_uses_default :
  api_concurrency (mk_json (Some "example.com") None None (Some 0%Z)) = 10%Z
  /\ api_concurrency (mk_json (Some "example.com") None None (Some 0%Z))
     <> clamp_concurrency 0.
Proof.
  split; [reflexivity | discriminate].
Qed.

(** C9 (amended).  The limit that [api_scan] hands to the scan, and with which
    the semaphore is created before any task exists, is the requested
    integer, or the default 10 when the request has none or has 0, clamped
    into [1, 50]: negative requests use 1, requests above 50 use 50, requests
    from 1 to 50 are used unchanged.  The scan applies no clamp of its own:
    the slots taken and the value of the semaphore always add up to this
    limit. *)
Theorem api_concurrency_clamped w data target st0 :
  j_target data = Some target ->
  Str.nonempty target = true ->
  scan_start app.DELAY_BETWEEN_REQUESTS w (api_target target) (api_paths data)
    (api_concurrency data) = Ok st0 ->
  let c := api_concurrency data in
  (1 <= c <= 50)%Z
  /\ c = match j_concurrency data with
         | None => 10%Z
         | Some n =>
             if (n =? 0)%Z then 10%Z
             else if (n <? 1)%Z then 1%Z
             else if (50 <? n)%Z then 50%Z
             else n
         end
  /\ sem st0 = Z.to_nat c
  /\ (forall sched,
        api_scan w data sched
        = if finished (run w st0 sched)
          then Json200 (results (run w st0 sched)) (List.length (api_paths data))
          else NoResponse (run w st0 sched))
  /\ forall sched,
       sem (run w st0 sched) + total t_held (tasks (run w st0 sched))
       = Z.to_nat c.
Proof.
  intros Ht Hne Hstart c.
  split; [unfold c, api_concurrency, clamp_concurrency; lia |].
  split.
  { unfold c, api_concurrency, clamp_concurrency, requested_concurrency,
      CONCURRENCY.
    destruct (j_concurrency data) as [n |]; [| reflexivity].
    destruct (Z.eqb_spec n 0); [reflexivity |].
    destruct (Z.ltb_spec n 1); destruct (Z.ltb_spec 50 n); lia. }
  split; [apply (scan_start_spec _ _ _ _ _ _ Hstart) |].
  split.
  - intros sched. unfold api_scan, scan_target. rewrite Ht, Hne. cbn [negb].
    rewrite Hstart. now destruct (finished (run w st0 sched)).
  - intros sched. apply (scan_state _ _ _ _ _ _ sched Hstart).
Qed.

Lemma api_concurrency_clamped_witness :
  api_concurrency (mk_json (Some "example.com") None None (Some 77%Z)) = 50%Z.
Proof.
  destruct (scan_start app.DELAY_BETWEEN_REQUESTS world_up
              (api_target "example.com")
              (api_paths (mk_json (Some "example.com") None None (Some 77%Z)))
              (api_concurrency (mk_json (Some "example.com") None None (Some 77%Z))))
    as [st0 | e] eqn:Hstart; [| vm_compute in Hstart; discriminate].
  apply (api_concurrency_clamped world_up
           (mk_json (Some "example.com") None None (Some 77%Z))
           "example.com" st0 eq_refl eq_refl Hstart).
Defined.

(** ** Where the events of a log come from *)

Lemma event_origin w st0 st tl e :
  on_course w st0 st tl -> In e tl ->
  exists t0, In t0 (tasks st0) /\ t_id t0 = ev_id e /\ In e (task_to_do w t0).
Proof.
  intros (_ & _ & _ & Hev & Hhist) Hin.
  rewrite Forall_forall in Hev. specialize (Hev e Hin).
  rewrite in_map_iff in Hev. destruct Hev as (t0 & Hid & Hin0).
  exists t0. repeat split; auto.
  destruct (In_nth_error _ _ Hin0) as [j Hj].
  destruct (Hhist j t0 Hj) as (t & _ & Hh). rewrite <- Hh.
  apply in_or_app. left. unfold history. apply filter_In. split; auto.
  unfold of_task. rewrite Hid. apply Nat.eqb_refl.
Qed.

Lemma recorded_url url r :
  outcome_url (recorded url r) = url /\ is_skipped (recorded url r) = false.
Proof.
  destruct r as [resp | [[] msg]]; simpl; auto.
Qed.

Lemma final_outcome_url w i url :
  outcome_url (final_outcome w i url) = url
  /\ is_skipped (final_outcome w i url) = false.
Proof.
  unfold final_outcome.
  destruct (classify (http w i 0)); apply recorded_url.
Qed.

Lemma fetch_events_event delay w i url headers e :
  In e (fetch_events delay w i url headers) ->
  ev_id e = i
  /\ (forall u h, e = EvSend i u h -> u = url /\ h = headers)
  /\ (forall o, e = EvAppend i o -> o = final_outcome w i url).
Proof.
  unfold fetch_events, settle, final_outcome. simpl.
  destruct (classify (http w i 0)); simpl;
    destruct (http w i 0); simpl;
    try destruct (http w i 1); simpl;
    intros H;
    repeat (destruct H as [<- | H];
            [repeat split; simpl; auto; intros; try discriminate;
             match goal with
             | Heq : _ = _ |- _ => inversion Heq; subst; auto
             end |]);
    try destruct H.
Qed.

Lemma gate_log_event w base_url paths : forall i e,
  In e (gate_log w base_url i paths) ->
  (exists u, e = EvRobots (ev_id e) u)
  \/ exists k p url,
       nth_error paths k = Some p /\ resolve base_url p = Ok url
       /\ allowed w base_url (i + k) p = false
       /\ e = EvAppend (i + k) (Skipped url SKIP_TAG).
Proof.
  induction paths as [| p rest IH]; simpl; intros i e H; [tauto |].
  destruct (resolve base_url p) as [url | ?] eqn:Hr; [| destruct H].
  apply in_app_or in H. destruct H as [H | H].
  - left. destruct (robots_gate_total w i base_url p) as (_ & _ & _ & Hall).
    rewrite Forall_forall in Hall. destruct (Hall e H) as [u ->]. eauto.
  - apply in_app_or in H. destruct H as [H | H].
    + destruct (allowed w base_url i p) eqn:Ha; [destruct H |].
      destruct H as [<- | []]. right. exists 0, p, url.
      rewrite Nat.add_0_r. auto.
    + destruct (IH _ _ H) as [Hrob | (k & q & u & H1 & H2 & H3 & H4)]; auto.
      right. exists (S k), q, u. rewrite Nat.add_succ_r. auto.
Qed.

(** Every event in the log of a scan is a robots read, the skip of a denied
    path, or an operation of the task of a permitted path. *)
Lemma log_event delay w base_url paths concurrency st0 sched e :
  scan_start delay w base_url paths concurrency = Ok st0 ->
  In e (log (run w st0 sched)) ->
  (exists u, e = EvRobots (ev_id e) u)
  \/ (exists k p url,
        nth_error paths k = Some p /\ resolve base_url p = Ok url
        /\ allowed w base_url k p = false
        /\ e = EvAppend k (Skipped url SKIP_TAG))
  \/ (exists k p url,
        nth_error paths k = Some p /\ resolve base_url p = Ok url
        /\ allowed w base_url k p = true
        /\ In e (fetch_events delay w k url (choose_user_agent w k))).
Proof.
  intros Hstart Hin.
  pose proof (scan_start_spec _ _ _ _ _ _ Hstart)
    as (_ & _ & _ & Htasks & Hlog & _).
  destruct (scan_state _ _ _ _ _ _ sched Hstart) as ((tl & Hc) & _).
  pose proof Hc as (Hl & _). rewrite Hl, Hlog in Hin.
  apply in_app_or in Hin. destruct Hin as [Hin | Hin].
  - apply gate_log_event in Hin. simpl in Hin. tauto.
  - right. right.
    destruct (event_origin _ _ _ _ _ Hc Hin) as (t0 & Hin0 & _ & He).
    rewrite Htasks in Hin0. apply spawned_spec in Hin0.
    destruct Hin0 as (k & p & url & H1 & H2 & H3 & ->).
    cbn [Nat.add] in *.
    exists k, p, url. rewrite fetch_to_do in He. auto.
Qed.

(** ** C7: the URL that the gate checks and the URL that is requested *)

(** C7 fails on the code.  With the base URL [https://example.com/app] and the
    path [admin], the gate asks robots.txt about [https://example.com/admin],
    while the task requests [https://example.com/app/admin]; when robots.txt
    disallows exactly the latter, the path is let through and the disallowed
    URL is requested. *)
Theorem gate_checks_another_url :
  robots_checked_url "https://example.com/app" "admin"
  = Ok "https://example.com/admin"
  /\ resolve "https://example.com/app" "admin"
     = Ok "https://example.com/app/admin"
  /\ can_fetch (disallow "https://example.com/app/admin") "*"
       "https://example.com/app/admin" = false
  /\ exists st,
       scan_target scanner.DELAY_BETWEEN_REQUESTS
         (world_robots "https://example.com/app/admin")
         "https://example.com/app" ["admin"] 10 [0; 0] = Running st
       /\ log st = [EvRobots 0 "https://example.com/robots.txt";
                    EvAcquire 0;
                    EvSend 0 "https://example.com/app/admin" "curl/8.0.1"].
Proof.
  repeat split; try reflexivity.
  eexists. split; [reflexivity |]. reflexivity.
Qed.

(** With a base URL that is a bare host the two disagree as well, on a path
    that starts with two slashes. *)
Lemma gate_checks_another_host :
  robots_checked_url "https://example.com" "//x" = Ok "https://x"
  /\ resolve "https://example.com" "//x" = Ok "https://example.com/x".
Proof. split; reflexivity. Qed.

(** ** C8: resolution is a function of the base URL and the path *)

(** C8, as stated, fails: resolution has an error path.  A path whose host
    part has an unmatched bracket makes [urljoin] raise [ValueError]. *)
Lemma resolve_raises :
  resolve "https://example.com" "http://["
  = Raise (mk_exn ValueError "Invalid IPv6 URL").
Proof. reflexivity. Qed.

(** The error of a path that does not resolve is the error of the scan, and
    nothing has been requested. *)
Lemma resolve_error_aborts_scan delay w base_url paths concurrency sched
    pre p post e :
  (0 <= concurrency)%Z ->
  paths = pre ++ p :: post ->
  Forall (resolves base_url) pre ->
  resolve base_url p = Raise e ->
  scan_target delay w base_url paths concurrency sched = Raised e.
Proof.
  intros Hc Hp Hpre Hr. unfold scan_target, scan_start.
  destruct (Z.ltb_spec concurrency 0) as [Hlt | _]; [lia |].
  assert (H : scan_loop delay w base_url 0 paths
                (mk_state (Z.to_nat concurrency) [] [] []) = Raise e).
  { apply scan_loop_raises. exists pre, p, post. auto. }
  now rewrite H.
Qed.

(** C8 (amended).  Resolution is the pure function [resolve] of the base URL
    and the path, which either returns a URL or raises the error of
    [urljoin].  In a scan that has started, every path resolves, and whatever
    the world, the concurrency, the schedule and the other paths are, every
    request sent and every outcome recorded for the [k]-th path carries
    [resolve base_url p] for the [k]-th path [p]. *)
Theorem resolve_is_pure delay w base_url paths concurrency st0 :
  scan_start delay w base_url paths concurrency = Ok st0 ->
  Forall (resolves base_url) paths
  /\ forall sched k,
       (forall url headers,
          In (EvSend k url headers) (log (run w st0 sched)) ->
          exists p, nth_error paths k = Some p /\ resolve base_url p = Ok url)
       /\ (forall o,
             In (EvAppend k o) (log (run w st0 sched)) ->
             exists p, nth_error paths k = Some p
                       /\ resolve base_url p = Ok (outcome_url o)).
Proof.
  intros Hstart. split; [apply (scan_start_spec _ _ _ _ _ _ Hstart) |].
  intros sched k. split.
  - intros url headers Hin.
    destruct (log_event _ _ _ _ _ _ _ _ Hstart Hin)
      as [[u Hu] | [(k' & p & u & _ & _ & _ & He)
                   | (k' & p & u & H1 & H2 & _ & He)]];
      try discriminate.
    destruct (fetch_events_event _ _ _ _ _ _ He) as (Hid & Hs & _).
    simpl in Hid. subst k'. destruct (Hs _ _ eq_refl) as [-> _]. eauto.
  - intros o Hin.
    destruct (log_event _ _ _ _ _ _ _ _ Hstart Hin)
      as [[u Hu] | [(k' & p & u & H1 & H2 & _ & He)
                   | (k' & p & u & H1 & H2 & _ & He)]];
      try discriminate.
    + inversion He; subst. eauto.
    + destruct (fetch_events_event _ _ _ _ _ _ He) as (Hid & _ & Ha).
      simpl in Hid. subst k'. rewrite (Ha _ eq_refl).
      destruct (final_outcome_url w k u) as [-> _]. eauto.
Qed.

Lemma resolve_is_pure_witness :
  Forall (resolves "https://example.com") ["x"; "/admin"].
Proof.
  destruct (scan_start scanner.DELAY_BETWEEN_REQUESTS world_up
              "https://example.com" ["x"; "/admin"] 2) as [st0 | e] eqn:Hstart;
    [| vm_compute in Hstart; discriminate].
  apply (resolve_is_pure _ _ _ _ _ _ Hstart).
Defined.

(** ** The retry policy of [fetch] *)

(** The plan of [fetch]: what the task of a path does when it is never made
    to wait, by the kind of its first response.
    After a transport-level failure it sleeps 0.5 s and makes exactly one
    more request, whose response is recorded: as [client_error] when it is a
    second transport-level failure, as a Success record when it is a
    response.  After a timeout, a response error or any other error it
    records the failure at once.  Nothing else is requested or recorded, so
    a path is requested at most twice. *)
Theorem fetch_retry_policy delay w i url headers :
  let evs := task_to_do w (new_task delay i url headers) in
  let r0 := http w i 0 in
  let r1 := http w i 1 in
  (classify r0 = Transport ->
   exists tail,
     evs = [EvAcquire i; EvSend i url headers; EvRecv i r0;
            EvSleep i (5 # 10)%Q;
            EvAcquire i; EvSend i url headers; EvRecv i r1;
            EvAppend i (recorded url r1)] ++ tail
     /\ count_sends tail = 0 /\ appended tail = [])
  /\ (classify r0 <> Transport ->
      exists tail,
        evs = [EvAcquire i; EvSend i url headers; EvRecv i r0;
               EvAppend i (recorded url r0)] ++ tail
        /\ count_sends tail = 0 /\ appended tail = [])
  /\ (forall e, classify (Raise e) = Transport ->
        recorded url (Raise e)
        = Failed url ("client_error: " ++ exc_str e)%string)
  /\ (forall e, classify (Raise e) = Timeout ->
        recorded url (Raise e) = Failed url "timeout")
  /\ (forall e, classify (Raise e) = ResponseError ->
        recorded url (Raise e)
        = Failed url ("response_error: " ++ exc_str e)%string)
  /\ (forall e, classify (Raise e) = OtherError ->
        recorded url (Raise e)
        = Failed url ("other_error: " ++ exc_str e)%string)
  /\ (forall resp, recorded url (Ok resp) = make_info url resp)
  /\ count_sends evs <= 2.
Proof.
  intros evs r0 r1. unfold evs. rewrite fetch_to_do.
  unfold fetch_events, settle. fold r0. fold r1.
  split; [| split; [| split; [| split; [| split; [| split; [| split]]]]]].
  - intros ->. simpl. destruct r1; eexists; (split; [reflexivity |]); auto.
  - intros Hk. destruct (classify r0) eqn:Hc; try congruence;
      simpl; destruct r0; eexists; (split; [reflexivity |]); auto.
  - intros e He. unfold recorded. now rewrite He.
  - intros e He. unfold recorded. now rewrite He.
  - intros e He. unfold recorded. now rewrite He.
  - intros e He. unfold recorded. now rewrite He.
  - reflexivity.
  - unfold count_sends. destruct (classify r0); simpl;
      destruct r0; simpl; try lia; destruct r1; simpl; lia.
Qed.

(** ** C5: the politeness pause *)

(** C5, as stated, fails: after a timeout the task releases its slot at once,
    without a pause. *)
Lemma no_pause_after_timeout :
  task_to_do world_slow
    (new_task scanner.DELAY_BETWEEN_REQUESTS 0 "https://example.com/x" "curl/8.0.1")
  = [EvAcquire 0; EvSend 0 "https://example.com/x" "curl/8.0.1";
     EvRecv 0 (Raise (mk_exn TimeoutError ""));
     EvAppend 0 (Failed "https://example.com/x" "timeout");
     EvRelease 0]
  /\ ~ pauses_after_every_outcome scanner.DELAY_BETWEEN_REQUESTS 0
         (task_to_do world_slow
            (new_task scanner.DELAY_BETWEEN_REQUESTS 0
               "https://example.com/x" "curl/8.0.1")).
Proof.
  split; [reflexivity |]. intros H.
  destruct (H [EvAcquire 0; EvSend 0 "https://example.com/x" "curl/8.0.1";
               EvRecv 0 (Raise (mk_exn TimeoutError ""))]
              (Failed "https://example.com/x" "timeout")
              [EvRelease 0] eq_refl) as (x & tail & Hx).
  discriminate.
Qed.

Lemma app_cons_cases {A : Type} (pre post l : list A) (x a : A) :
  pre ++ x :: post = a :: l ->
  (pre = [] /\ x = a /\ post = l)
  \/ exists pre', pre = a :: pre' /\ pre' ++ x :: post = l.
Proof.
  destruct pre as [| b pre]; simpl; intros H; inversion H; subst; eauto.
Qed.

Ltac find_append H :=
  repeat match type of H with
         | _ ++ _ :: _ = _ :: _ =>
             apply app_cons_cases in H;
             destruct H as [(-> & H & ->) | (? & -> & H)];
             [try discriminate H; inversion H; subst; simpl; eauto |]
         | ?pre ++ _ :: _ = [] => destruct pre; discriminate H
         end.

(** C5 (amended).  The pause is the base delay plus a tenth of a random
    number from [0, 1), so it lies between the base delay and the base delay
    plus 0.1 s.  It follows the record of a response, before the slot is
    released; the record of a failure is followed by the release at once. *)
Theorem pause_after_response delay w i url headers :
  (0 <= random w i)%Q -> (random w i < 1)%Q ->
  (delay <= pause delay w i)%Q
  /\ (pause delay w i < delay + (1 # 10))%Q
  /\ forall pre o post,
       task_to_do w (new_task delay i url headers)
       = pre ++ EvAppend i o :: post ->
       match o with
       | Success _ _ _ _ _ _ _ =>
           exists tail,
             post = EvRandom i (random w i) :: EvSleep i (pause delay w i)
                    :: EvRelease i :: tail
       | _ => exists tail, post = EvRelease i :: tail
       end.
Proof.
  intros Hlo Hhi. unfold pause.
  split; [lra |]. split; [lra |].
  intros pre o post H. rewrite fetch_to_do in H.
  unfold fetch_events, settle, recorded, pause in H. simpl in H.
  symmetry in H.
  destruct (http w i 0) as [resp0 | [[] m0]]; simpl in H;
    try (solve [find_append H]);
    destruct (http w i 1) as [resp1 | [[] m1]]; simpl in H;
    solve [find_append H].
Qed.

Lemma pause_after_response_witness :
  (scanner.DELAY_BETWEEN_REQUESTS
   <= pause scanner.DELAY_BETWEEN_REQUESTS world_up 0)%Q
  /\ (pause scanner.DELAY_BETWEEN_REQUESTS world_up 0
      < scanner.DELAY_BETWEEN_REQUESTS + (1 # 10))%Q.
Proof.
  assert (Hlo : (0 <= random world_up 0)%Q) by (vm_compute; discriminate).
  assert (Hhi : (random world_up 0 < 1)%Q) by reflexivity.
  pose proof (pause_after_response scanner.DELAY_BETWEEN_REQUESTS world_up 0
                "https://example.com/x" "curl/8.0.1" Hlo Hhi) as H.
  split; apply H.
Defined.

(** ** C6: denied paths *)

Lemma skips_complete w base_url paths : forall i k p url,
  Forall (resolves base_url) paths ->
  nth_error paths k = Some p -> resolve base_url p = Ok url ->
  allowed w base_url (i + k) p = false ->
  In (Skipped url SKIP_TAG) (skips w base_url i paths)
  /\ In (EvAppend (i + k) (Skipped url SKIP_TAG)) (gate_log w base_url i paths).
Proof.
  induction paths as [| q rest IH]; intros i k p url Hall Hn Hr Ha;
    [destruct k; discriminate |].
  inversion Hall as [| ? ? [u Hu] Hrest]; subst. simpl. rewrite Hu.
  destruct k as [| k]; simpl in Hn.
  - inversion Hn; subst. rewrite Nat.add_0_r in Ha. rewrite Ha.
    assert (u = url) by congruence. subst u. split; [now left |].
    apply in_or_app. right. rewrite Nat.add_0_r. now left.
  - rewrite Nat.add_succ_r in Ha.
    destruct (IH (S i) k p url Hrest Hn Hr Ha) as [H1 H2].
    rewrite Nat.add_succ_r. split.
    + destruct (allowed w base_url i q); [| right]; exact H1.
    + apply in_or_app. right. apply in_or_app. right. exact H2.
Qed.

(** C6, as stated, fails on the reason: the record of a denied path carries
    the tag [disallowed_by_robots_txt], not the words of the claim. *)
Lemma skip_reason_is_a_tag :
  (forall sched,
     scan_target scanner.DELAY_BETWEEN_REQUESTS
       (world_robots "https://example.com/admin")
       "https://example.com" ["admin"] 10 sched
     = Returned [Skipped "https://example.com/admin" "disallowed_by_robots_txt"])
  /\ ~ In (Skipped "https://example.com/admin" "disallowed by robots.txt")
         [Skipped "https://example.com/admin" "disallowed_by_robots_txt"].
Proof.
  split; [| intros [H | []]; discriminate]. intros sched.
  unfold scan_target.
  destruct (scan_start scanner.DELAY_BETWEEN_REQUESTS
              (world_robots "https://example.com/admin")
              "https://example.com" ["admin"] 10) as [st0 | e] eqn:Hstart;
    [| vm_compute in Hstart; discriminate].
  assert (Ht : tasks st0 = []).
  { apply scan_start_spec in Hstart.
    destruct Hstart as (_ & _ & _ & -> & _). reflexivity. }
  assert (Hr : results st0 = [Skipped "https://example.com/admin"
                                "disallowed_by_robots_txt"]).
  { apply scan_start_spec in Hstart.
    destruct Hstart as (_ & _ & -> & _). reflexivity. }
  assert (Hrun : run (world_robots "https://example.com/admin") st0 sched = st0).
  { clear - Ht. induction sched as [| j rest IH]; simpl; auto.
    unfold step. rewrite Ht. now destruct j. }
  rewrite Hrun. unfold finished. rewrite Ht, Hr. reflexivity.
Qed.

(** C6 (amended).  A path that the gate denies is recorded as skipped, with
    the reason [disallowed_by_robots_txt], by the scheduling loop itself, so
    before any task runs.  No task is made for it: at no moment of the scan
    does the log hold a request, an acquisition of the semaphore or any
    other operation for it, only the read of robots.txt and the skip. *)
Theorem denied_path_is_skipped delay w base_url paths concurrency st0 k p :
  scan_start delay w base_url paths concurrency = Ok st0 ->
  nth_error paths k = Some p ->
  allowed w base_url k p = false ->
  exists url,
    resolve base_url p = Ok url
    /\ In (Skipped url "disallowed_by_robots_txt") (results st0)
    /\ In (EvAppend k (Skipped url "disallowed_by_robots_txt")) (log st0)
    /\ (forall t, In t (tasks st0) -> t_id t <> k)
    /\ forall sched e,
         In e (log (run w st0 sched)) -> ev_id e = k ->
         (exists u, e = EvRobots k u)
         \/ e = EvAppend k (Skipped url "disallowed_by_robots_txt").
Proof.
  intros Hstart Hn Ha.
  pose proof (scan_start_spec _ _ _ _ _ _ Hstart)
    as (_ & _ & Hres & Htasks & Hlog & Hall).
  assert (Hp : resolves base_url p).
  { rewrite Forall_forall in Hall. apply Hall. eapply nth_error_In; eauto. }
  destruct Hp as [url Hurl]. exists url.
  destruct (skips_complete w base_url paths 0 k p url Hall Hn Hurl Ha)
    as [Hs Hg].
  split; [exact Hurl |]. split; [now rewrite Hres |].
  split; [now rewrite Hlog |]. split.
  - intros t Hin Hid. rewrite Htasks in Hin. apply spawned_spec in Hin.
    destruct Hin as (k' & p' & u & H1 & _ & H3 & ->). simpl in Hid.
    subst k'. simpl in H3. congruence.
  - intros sched e Hin Hid.
    destruct (log_event _ _ _ _ _ _ _ _ Hstart Hin)
      as [[u Hu] | [(k' & p' & u & H1 & H2 & _ & He)
                   | (k' & p' & u & H1 & _ & H3 & He)]].
    + left. exists u. now rewrite <- Hid.
    + right. subst e. simpl in Hid. subst k'.
      assert (p' = p) by congruence. subst p'.
      assert (u = url) by congruence. now subst u.
    + exfalso. apply fetch_events_event in He. destruct He as (Hid' & _).
      assert (k' = k) by congruence. subst k'. congruence.
Qed.

Lemma denied_path_is_skipped_witness :
  exists url,
    resolve "https://example.com" "admin" = Ok url
    /\ url = "https://example.com/admin".
Proof.
  destruct (scan_start scanner.DELAY_BETWEEN_REQUESTS
              (world_robots "https://example.com/admin")
              "https://example.com" ["x"; "admin"] 2) as [st0 | e] eqn:Hstart;
    [| vm_compute in Hstart; discriminate].
  destruct (denied_path_is_skipped _ _ _ _ _ st0 1 "admin" Hstart
              eq_refl eq_refl) as (url & Hurl & _).
  exists url. split; [exact Hurl |].
  vm_compute in Hurl. now inversion Hurl.
Defined.

(** ** C10: skips come first *)

Lemma skips_filter w base_url paths : forall i,
  skips w base_url i paths
  = filter is_skipped (expected w base_url i paths).
Proof.
  induction paths as [| p rest IH]; simpl; intros i; auto.
  destruct (resolve base_url p) as [url |]; simpl; auto.
  destruct (allowed w base_url i p); simpl.
  - destruct (final_outcome_url w i url) as [_ ->]. apply IH.
  - f_equal. apply IH.
Qed.

Lemma appended_In tl o :
  In o (appended tl) -> exists i, In (EvAppend i o) tl.
Proof.
  induction tl as [| e tl IH]; simpl; [tauto |].
  destruct e; simpl; intros H;
    try (destruct (IH H) as [j Hj]; eauto).
  destruct H as [<- | H]; eauto.
  destruct (IH H) as [j Hj]; eauto.
Qed.

(** C10.  At every moment of a scan, and so when it returns, the result list
    is the skip records of the denied paths, in the order of their paths in
    the input, followed by the outcomes of the tasks, none of which is a
    skip. *)
Theorem skips_come_first delay w base_url paths concurrency st0 :
  scan_start delay w base_url paths concurrency = Ok st0 ->
  forall sched, exists probes,
    results (run w st0 sched)
    = filter is_skipped (expected w base_url 0 paths) ++ probes
    /\ Forall (fun o => is_skipped o = false) probes.
Proof.
  intros Hstart sched.
  pose proof (scan_start_spec _ _ _ _ _ _ Hstart)
    as (_ & _ & Hres & Htasks & _ & _).
  destruct (scan_state _ _ _ _ _ _ sched Hstart) as ((tl & Hc) & _).
  pose proof Hc as (_ & Hr & _).
  exists (appended tl). split.
  - now rewrite Hr, Hres, skips_filter.
  - rewrite Forall_forall. intros o Ho.
    destruct (appended_In _ _ Ho) as [i Hi].
    destruct (event_origin _ _ _ _ _ Hc Hi) as (t0 & Hin0 & _ & He).
    rewrite Htasks in Hin0.
    destruct (spawned_to_do _ _ _ _ _ _ Hin0) as (u & h & _ & Htd).
    rewrite Htd in He. apply fetch_events_event in He.
    destruct He as (Hid & _ & Ha). simpl in Hid.
    rewrite <- Hid in Ha. rewrite (Ha o eq_refl).
    apply final_outcome_url.
Qed.

Lemma skips_come_first_witness :
  exists probes,
    results (run (world_robots "https://example.com/admin")
               match scan_start scanner.DELAY_BETWEEN_REQUESTS
                       (world_robots "https://example.com/admin")
                       "https://example.com" ["x"; "admin"] 2 with
               | Ok st0 => st0
               | Raise _ => mk_state 0 [] [] []
               end [0; 0; 0; 0])
    = [Skipped "https://example.com/admin" "disallowed_by_robots_txt"]
      ++ probes.
Proof.
  destruct (scan_start scanner.DELAY_BETWEEN_REQUESTS
              (world_robots "https://example.com/admin")
              "https://example.com" ["x"; "admin"] 2) as [st0 | e] eqn:Hstart;
    [| vm_compute in Hstart; discriminate].
  destruct (skips_come_first _ _ _ _ _ _ Hstart [0; 0; 0; 0])
    as (probes & Hp & _).
  exists probes. exact Hp.
Defined.

(** ** C1: one outcome for each path *)

(** C1, as stated, fails: a path that does not resolve makes the whole scan
    raise, so that no path of the sequence has an outcome and the front end
    answers with an error that has neither results nor a count. *)
Lemma unresolvable_path_aborts_scan :
  (forall sched,
     scan_target app.DELAY_BETWEEN_REQUESTS world_up "https://example.com"
       ["x"; "http://["] 10 sched
     = Raised (mk_exn ValueError "Invalid IPv6 URL"))
  /\ (forall sched,
        api_scan world_up
          (mk_json (Some "example.com") (Some false)
             (Some [Some "x"; Some "http://["]) None) sched
        = Json500 "scan failed: Invalid IPv6 URL")
  /\ ~ exists sched rs,
         scan_target app.DELAY_BETWEEN_REQUESTS world_up "https://example.com"
           ["x"; "http://["] 10 sched = Returned rs
         /\ List.length rs = 2.
Proof.
  assert (H : forall sched,
            scan_target app.DELAY_BETWEEN_REQUESTS world_up
              "https://example.com" ["x"; "http://["] 10 sched
            = Raised (mk_exn ValueError "Invalid IPv6 URL")).
  { intros sched.
    apply (resolve_error_aborts_scan _ _ _ _ _ _ ["x"] "http://[" []).
    - lia.
    - reflexivity.
    - constructor; [| constructor]. eexists. reflexivity.
    - reflexivity. }
  split; [exact H |]. split.
  - intros sched. unfold api_scan. simpl j_target. cbv iota.
    change (api_target "example.com") with "https://example.com".
    change (api_paths _) with ["x"; "http://["].
    change (api_concurrency _) with 10%Z.
    change (negb (Str.nonempty "example.com")) with false. cbv iota.
    now rewrite H.
  - intros (sched & rs & Hr & _). rewrite H in Hr. discriminate.
Qed.

(** C1 (amended).  A scan that returns, returns exactly one outcome for each
    path of the input: its result list is, in some order, the list that has
    for each path the skip record when the gate denies it and the record of
    its task otherwise, and the length of the list is the number of paths. *)
Theorem returned_scan_is_complete delay w base_url paths concurrency sched rs :
  scan_target delay w base_url paths concurrency sched = Returned rs ->
  Permutation rs (expected w base_url 0 paths)
  /\ List.length rs = List.length paths.
Proof.
  unfold scan_target.
  destruct (scan_start delay w base_url paths concurrency) as [st0 | e]
    eqn:Hstart; [| discriminate].
  destruct (finished (run w st0 sched)) eqn:Hfin; [| discriminate].
  intros H. inversion H; subst rs.
  pose proof (finished_results _ _ _ _ _ _ _ Hstart Hfin) as Hperm.
  split; auto.
  rewrite (Permutation_length Hperm). apply expected_length.
  apply (scan_start_spec _ _ _ _ _ _ Hstart).
Qed.

Lemma returned_scan_is_complete_witness :
  Permutation sample_results
    (expected (world_robots "https://example.com/admin")
       "https://example.com" 0 ["x"; "admin"; "/y"])
  /\ List.length sample_results = 3.
Proof.
  apply (returned_scan_is_complete scanner.DELAY_BETWEEN_REQUESTS
           (world_robots "https://example.com/admin") "https://example.com"
           ["x"; "admin"; "/y"] 2
           [1; 1; 1; 0; 0; 0; 1; 0; 1; 0; 1; 0; 1; 0]).
  vm_compute. reflexivity.
Defined.

(** The answer of the front end to a scan that returns: as many results as
    paths were checked. *)
Lemma api_scan_checked w data sched rs checked :
  api_scan w data sched = Json200 rs checked ->
  checked = List.length (api_paths data) /\ List.length rs = checked.
Proof.
  unfold api_scan. destruct (j_target data) as [target |]; [| discriminate].
  destruct (negb (Str.nonempty target)); [discriminate |].
  destruct (scan_target app.DELAY_BETWEEN_REQUESTS w (api_target target)
              (api_paths data) (api_concurrency data) sched)
    as [rs' | e | st] eqn:Hscan; try discriminate.
  intros H. inversion H; subst. split; auto.
  unfold scan_target in Hscan.
  destruct (scan_start app.DELAY_BETWEEN_REQUESTS w (api_target target)
              (api_paths data) (api_concurrency data)) as [st0 | e']
    eqn:Hstart; [| discriminate].
  destruct (finished (run w st0 sched)) eqn:Hfin; [| discriminate].
  inversion Hscan; subst.
  rewrite (Permutation_length (finished_results _ _ _ _ _ _ _ Hstart Hfin)).
  apply expected_length. apply (scan_start_spec _ _ _ _ _ _ Hstart).
Qed.

(** X3.  With fewer tasks that retry than slots, the scan returns, however
    the tasks have been run so far. *)
Lemma scan_returns delay w base_url paths concurrency st0 :
  scan_start delay w base_url paths concurrency = Ok st0 ->
  retriers w st0 < Z.to_nat concurrency ->
  forall sched, exists sched' rs,
    scan_target delay w base_url paths concurrency (sched ++ sched')
    = Returned rs.
Proof.
  intros Hstart Hfew sched.
  destruct (scan_completes _ _ _ _ _ _ Hstart Hfew sched) as [sched' Hfin].
  exists sched', (results (run w st0 (sched ++ sched'))).
  unfold scan_target. now rewrite Hstart, Hfin.
Qed.

(** ** C2: the slots of the semaphore *)

(** X1.  At every moment of a scan, the requests that are out are at most
    as many as the semaphore has slots. *)
Lemma in_flight_bounded delay w base_url paths concurrency st0 sched :
  scan_start delay w base_url paths concurrency = Ok st0 ->
  total in_flight (tasks (run w st0 sched)) <= Z.to_nat concurrency.
Proof.
  intros Hstart.
  destruct (scan_state _ _ _ _ _ _ sched Hstart) as (_ & Hbal & _ & Hsem & _).
  assert (Hle : total in_flight (tasks (run w st0 sched))
                <= total t_held (tasks (run w st0 sched))).
  { apply total_le. rewrite Forall_forall in *. intros t Hin.
    apply (in_flight_held w). auto. }
  lia.
Qed.

Lemma total_ge_nth {A : Type} (f : A -> nat) (l : list A) : forall j x,
  nth_error l j = Some x -> f x <= total f l.
Proof.
  unfold total. induction l as [| a l IH]; intros [| j] x H; simpl in *;
    try discriminate.
  - inversion H; subst. lia.
  - specialize (IH j x H). lia.
Qed.

(** With a single slot, a task that retries waits for ever for the slot it
    holds itself, and the scan never returns. *)
Lemma single_slot_retry_never_returns delay w base_url paths st0 t0 :
  scan_start delay w base_url paths 1 = Ok st0 ->
  In t0 (tasks st0) -> retrying w (t_id t0) = 1 ->
  forall sched, finished (run w st0 sched) = false.
Proof.
  intros Hstart Hin Hretry.
  destruct (In_nth_error _ _ Hin) as [j Hj].
  assert (Hinit : 1 <= nest (t_held t0) (task_to_do w t0)).
  { pose proof (scan_start_spec _ _ _ _ _ _ Hstart) as (_ & _ & _ & Ht & _).
    rewrite Ht in Hin.
    destruct (spawned_to_do _ _ _ _ _ _ Hin) as (u & h & -> & ->).
    rewrite nest_fetch_events. lia. }
  assert (Hinv : forall sched, exists t,
            nth_error (tasks (run w st0 sched)) j = Some t
            /\ 1 <= nest (t_held t) (task_to_do w t)).
  { induction sched as [| j' sched IH] using rev_ind; [simpl; eauto |].
    destruct IH as (t & Hn & Hnest).
    destruct (scan_state _ _ _ _ _ _ sched Hstart)
      as (_ & _ & _ & Hsem & _).
    rewrite run_app. simpl.
    destruct (step w (run w st0 sched) j') as [st' |] eqn:Hs; [| eauto].
    apply step_spec in Hs.
    destruct Hs as (t1 & t1' & e & Hn1 & Ht & _ & _ & Htd & _ & _ & Heff).
    rewrite Ht. destruct (Nat.eq_dec j' j) as [-> | Hne].
    - assert (t1 = t) by congruence. subst t1.
      exists t1'. split; [eapply nth_error_set_nth_eq; eauto |].
      rewrite Htd in Hnest.
      pose proof (total_ge_nth t_held _ _ _ Hn) as Hge.
      destruct e; simpl in *; destruct Heff as [Hv ->]; lia.
    - exists t. split; [| exact Hnest].
      rewrite nth_error_set_nth_neq; auto. }
  intros sched. destruct (Hinv sched) as (t & Hn & Hnest).
  destruct (finished (run w st0 sched)) eqn:Hfin; [| reflexivity].
  rewrite (finished_to_do w _ t Hfin) in Hnest
    by (eapply nth_error_In; eauto).
  simpl in Hnest. lia.
Qed.

(** C2 fails on the code.  With one slot and a host that refuses the
    connection, the task of the only path takes the slot, sees its request
    fail, sleeps, and then asks the semaphore for a second slot while it
    still holds the first: it goes through the limiter again.  No slot is
    left, so nothing can move, the path never gets an outcome and the scan
    never returns. *)
Theorem retry_acquires_second_slot :
  exists st0,
    scan_start scanner.DELAY_BETWEEN_REQUESTS world_down "https://example.com"
      ["x"] 1 = Ok st0
    /\ (let st := run world_down st0 [0; 0; 0; 0; 0] in
        sem st = 0
        /\ map t_held (tasks st) = [1]
        /\ map (fun t => hd_error (task_to_do world_down t)) (tasks st)
           = [Some (EvAcquire 0)]
        /\ results st = []
        /\ log st = [EvRobots 0 "https://example.com/robots.txt";
                     EvAcquire 0;
                     EvSend 0 "https://example.com/x" "curl/8.0.1";
                     EvRecv 0 (Raise connection_refused);
                     EvSleep 0 (5 # 10)%Q]
        /\ deadlocked world_down st)
    /\ forall sched, exists st,
         scan_target scanner.DELAY_BETWEEN_REQUESTS world_down
           "https://example.com" ["x"] 1 sched = Running st.
Proof.
  destruct (scan_start scanner.DELAY_BETWEEN_REQUESTS world_down
              "https://example.com" ["x"] 1) as [st0 | e] eqn:Hstart;
    [| vm_compute in Hstart; discriminate].
  exists st0. split; [reflexivity |].
  assert (Hst0 : st0 = mk_state 1
                   [new_task scanner.DELAY_BETWEEN_REQUESTS 0
                      "https://example.com/x" "curl/8.0.1"] []
                   [EvRobots 0 "https://example.com/robots.txt"]).
  { vm_compute in Hstart. inversion Hstart. reflexivity. }
  split.
  - subst st0. repeat split; try reflexivity.
    intros [| [| j]]; reflexivity.
  - intros sched. unfold scan_target. rewrite Hstart.
    assert (Hin : In (new_task scanner.DELAY_BETWEEN_REQUESTS 0
                        "https://example.com/x" "curl/8.0.1") (tasks st0)).
    { subst st0. now left. }
    rewrite (single_slot_retry_never_returns _ _ _ _ _ _ Hstart Hin eq_refl).
    eauto.
Qed.

(** With two slots the same retry goes through: the first request is reset,
    the second is answered, and the outcome is the Success record. *)
Lemma retry_succeeds_with_two_slots :
  scan_target scanner.DELAY_BETWEEN_REQUESTS world_flaky "https://example.com"
    ["x"] 2 [0; 0; 0; 0; 0; 0; 0; 0; 0; 0; 0; 0]
  = Returned [make_info "https://example.com/x" ok_response]
  /\ count_sends
       (task_to_do world_flaky
          (new_task scanner.DELAY_BETWEEN_REQUESTS 0 "https://example.com/x"
             "curl/8.0.1")) = 2.
Proof. split; reflexivity. Qed.

(** * Further properties of the code *)

(** ** The semaphore over a whole scan *)

Lemma in_flight_bounded_witness :
  total in_flight
    (tasks (run world_up
              (started scanner.DELAY_BETWEEN_REQUESTS world_up
                 "https://example.com" ["x"; "y"; "z"] 2)
              [0; 0; 1; 1; 2; 2])) <= Z.to_nat 2.
Proof.
  unfold started.
  destruct (scan_start scanner.DELAY_BETWEEN_REQUESTS world_up
              "https://example.com" ["x"; "y"; "z"] 2) as [st0 | e] eqn:Hstart;
    [| vm_compute in Hstart; discriminate].
  apply (in_flight_bounded _ _ _ _ _ _ _ Hstart).
Defined.

(** X2.  When the scan has finished, no task holds a slot and the semaphore
    is back at its initial value: no slot is lost, whatever the responses
    and the schedule were. *)
Theorem slots_returned delay w base_url paths concurrency st0 sched :
  scan_start delay w base_url paths concurrency = Ok st0 ->
  finished (run w st0 sched) = true ->
  sem (run w st0 sched) = Z.to_nat concurrency
  /\ Forall (fun t => t_held t = 0) (tasks (run w st0 sched)).
Proof.
  intros Hstart Hfin.
  destruct (scan_state _ _ _ _ _ _ sched Hstart) as (_ & Hbal & _ & Hsem & _).
  assert (Hz : Forall (fun t => t_held t = 0) (tasks (run w st0 sched))).
  { rewrite Forall_forall in *. intros t Hin.
    specialize (Hbal t Hin). unfold balanced in Hbal.
    now rewrite (finished_to_do w _ t Hfin Hin) in Hbal. }
  split; auto. rewrite (total_zero _ _ Hz) in Hsem. lia.
Qed.

Lemma slots_returned_witness :
  sem (run world_flaky
         (started scanner.DELAY_BETWEEN_REQUESTS world_flaky
            "https://example.com" ["x"] 2)
         [0; 0; 0; 0; 0; 0; 0; 0; 0; 0; 0; 0]) = Z.to_nat 2.
Proof.
  assert (Hfin : finished
                   (run world_flaky
                      (started scanner.DELAY_BETWEEN_REQUESTS world_flaky
                         "https://example.com" ["x"] 2)
                      [0; 0; 0; 0; 0; 0; 0; 0; 0; 0; 0; 0]) = true)
    by (vm_compute; reflexivity).
  unfold started in *.
  destruct (scan_start scanner.DELAY_BETWEEN_REQUESTS world_flaky
              "https://example.com" ["x"] 2) as [st0 | e] eqn:Hstart;
    [| vm_compute in Hstart; discriminate].
  apply (slots_returned _ _ _ _ _ _ _ Hstart Hfin).
Defined.

Lemma scan_returns_witness :
  exists sched' rs,
    scan_target scanner.DELAY_BETWEEN_REQUESTS world_up "https://example.com"
      ["x"; "y"] 1 ([1; 1] ++ sched') = Returned rs.
Proof.
  assert (Hfew : retriers world_up
                   (started scanner.DELAY_BETWEEN_REQUESTS world_up
                      "https://example.com" ["x"; "y"] 1) < Z.to_nat 1)
    by (vm_compute; lia).
  unfold started in Hfew.
  destruct (scan_start scanner.DELAY_BETWEEN_REQUESTS world_up
              "https://example.com" ["x"; "y"] 1) as [st0 | e] eqn:Hstart;
    [| vm_compute in Hstart; discriminate].
  apply (scan_returns _ _ _ _ _ _ Hstart Hfew).
Defined.

(** ** The shared result list only grows *)

Lemma run_extends w sched : forall st,
  exists more,
    log (run w st sched) = log st ++ more
    /\ results (run w st sched) = results st ++ appended more.
Proof.
  induction sched as [| j rest IH]; simpl; intros st.
  - exists []. now rewrite !app_nil_r.
  - destruct (step w st j) as [st' |] eqn:Hs; [| apply IH].
    apply step_spec in Hs.
    destruct Hs as (t & t' & e & _ & _ & Hl & Hr & _).
    destruct (IH st') as (more & Hl' & Hr').
    exists (e :: more). rewrite Hl', Hr', Hl, Hr, <- !app_assoc.
    split; [reflexivity |].
    change (e :: more) with ([e] ++ more). now rewrite appended_app.
Qed.

(** The result list is append-only: whatever the tasks do next, the
    outcomes recorded so far stay where they are, and what is added to the
    list is what the operations logged since have appended. *)
Theorem results_append_only w st sched sched' :
  exists more,
    log (run w st (sched ++ sched')) = log (run w st sched) ++ more
    /\ results (run w st (sched ++ sched'))
       = results (run w st sched) ++ appended more.
Proof.
  rewrite run_app. apply run_extends.
Qed.

(** ** A scan without tasks *)

Lemma run_no_tasks w sched : forall st,
  tasks st = [] -> run w st sched = st.
Proof.
  induction sched as [| j rest IH]; simpl; intros st Ht; auto.
  unfold step. rewrite Ht. destruct j; simpl; apply IH; auto.
Qed.

Lemma scan_loop_ok delay w base_url paths : forall i st,
  Forall (resolves base_url) paths ->
  exists st', scan_loop delay w base_url i paths st = Ok st'.
Proof.
  intros i st Hall.
  destruct (scan_loop delay w base_url i paths st) as [st' | e] eqn:H; eauto.
  apply scan_loop_raises in H.
  destruct H as (pre & p & post & -> & _ & Hr).
  rewrite Forall_forall in Hall.
  destruct (Hall p) as [u Hu]; [apply in_or_app; right; now left |].
  congruence.
Qed.

Lemma all_denied_plan delay w base_url paths : forall i,
  Forall (resolves base_url) paths ->
  (forall k p, nth_error paths k = Some p ->
               allowed w base_url (i + k) p = false) ->
  spawned delay w base_url i paths = []
  /\ skips w base_url i paths = expected w base_url i paths.
Proof.
  induction paths as [| p rest IH]; simpl; intros i Hall Hden; auto.
  inversion Hall as [| ? ? [u Hu] Hrest]; subst. rewrite Hu.
  pose proof (Hden 0 p eq_refl) as H0. rewrite Nat.add_0_r in H0.
  rewrite H0.
  destruct (IH (S i) Hrest) as [Hs Hk].
  { intros k q Hq. rewrite Nat.add_succ_l, <- Nat.add_succ_r.
    apply (Hden (S k) q Hq). }
  split; [exact Hs | now rewrite Hk].
Qed.

(** X5.  When the gate denies every path (and so too when there is no path
    at all), the scan returns at once, whatever the schedule: its result is
    the skip records of the paths, in input order, and no task exists. *)
Theorem all_denied_returns_at_once delay w base_url paths concurrency :
  (0 <= concurrency)%Z ->
  Forall (resolves base_url) paths ->
  (forall k p, nth_error paths k = Some p -> allowed w base_url k p = false) ->
  forall sched,
    scan_target delay w base_url paths concurrency sched
    = Returned (expected w base_url 0 paths)
    /\ List.length (expected w base_url 0 paths) = List.length paths.
Proof.
  intros Hc Hall Hden sched.
  split; [| now apply expected_length].
  unfold scan_target, scan_start.
  destruct (Z.ltb_spec concurrency 0) as [Hlt | _]; [lia |].
  destruct (scan_loop_ok delay w base_url paths 0
              (mk_state (Z.to_nat concurrency) [] [] []) Hall) as [st0 Hst0].
  rewrite Hst0. apply scan_loop_spec in Hst0. simpl in Hst0.
  destruct Hst0 as (_ & Hres & Htasks & _).
  destruct (all_denied_plan delay w base_url paths 0 Hall) as [Hs Hk].
  { intros k p Hp. simpl. auto. }
  rewrite Hs in Htasks. rewrite Hk in Hres.
  rewrite (run_no_tasks w sched st0 Htasks).
  unfold finished. now rewrite Htasks, Hres.
Qed.

Lemma all_denied_returns_at_once_witness :
  scan_target scanner.DELAY_BETWEEN_REQUESTS
    (world_robots "https://example.com/admin") "https://example.com"
    ["admin"%string] 10 [0; 1; 2]
  = Returned [Skipped "https://example.com/admin" SKIP_TAG]
  /\ List.length (expected (world_robots "https://example.com/admin")
                    "https://example.com" 0 ["admin"%string]) = 1.
Proof.
  apply (all_denied_returns_at_once scanner.DELAY_BETWEEN_REQUESTS
           (world_robots "https://example.com/admin")
           "https://example.com" ["admin"%string] 10).
  - lia.
  - constructor; [eexists; vm_compute; reflexivity | constructor].
  - intros [| k] p H; [inversion H; subst; vm_compute; reflexivity |].
    destruct k; discriminate.
Defined.

(** ** The reads of robots.txt *)

Lemma gate_reads_once w i base_url p u :
  robots_txt_url base_url = Ok u ->
  snd (can_fetch_robots w i base_url p) = [EvRobots i u].
Proof.
  intros Hu. unfold can_fetch_robots. rewrite Hu.
  destruct (rp_read w i u); [| reflexivity].
  destruct (robots_checked_url base_url p); reflexivity.
Qed.

Lemma filter_none {A : Type} (P : A -> bool) (l : list A) :
  Forall (fun x => P x = false) l -> filter P l = [].
Proof.
  induction 1 as [| x l Hx _ IH]; simpl; auto. now rewrite Hx.
Qed.

Lemma gate_log_robots w base_url u paths : forall i,
  robots_txt_url base_url = Ok u ->
  Forall (resolves base_url) paths ->
  filter is_robots (gate_log w base_url i paths)
  = map (fun k => EvRobots k u) (seq i (List.length paths)).
Proof.
  induction paths as [| p rest IH]; simpl; intros i Hu Hall; auto.
  inversion Hall as [| ? ? [url Hurl] Hrest]; subst. rewrite Hurl.
  rewrite !filter_app, (gate_reads_once w i base_url p u Hu). simpl.
  f_equal. rewrite (IH (S i) Hu Hrest).
  now destruct (allowed w base_url i p).
Qed.

Lemma fetch_events_not_robots delay w i url headers e :
  In e (fetch_events delay w i url headers) -> is_robots e = false.
Proof.
  unfold fetch_events, settle. simpl.
  destruct (classify (http w i 0)); simpl;
    destruct (http w i 0); simpl;
    try destruct (http w i 1); simpl;
    intros H;
    repeat (destruct H as [<- | H]; [reflexivity |]);
    destruct H.
Qed.

(** X6.  A scan reads robots.txt once for every path of the input, in input
    order, permitted or not, and never again afterwards: nothing of the file
    is kept from one path to the next, and no task reads it. *)
Theorem robots_read_for_every_path delay w base_url paths concurrency st0 u :
  scan_start delay w base_url paths concurrency = Ok st0 ->
  robots_txt_url base_url = Ok u ->
  forall sched,
    filter is_robots (log (run w st0 sched))
    = map (fun k => EvRobots k u) (seq 0 (List.length paths)).
Proof.
  intros Hstart Hu sched.
  pose proof (scan_start_spec _ _ _ _ _ _ Hstart)
    as (_ & _ & _ & Htasks & Hlog & Hall).
  destruct (scan_state _ _ _ _ _ _ sched Hstart) as ((tl & Hc) & _).
  pose proof Hc as (Hl & _).
  rewrite Hl, Hlog, filter_app, (gate_log_robots w base_url u paths 0 Hu Hall).
  rewrite (filter_none is_robots tl); [now rewrite app_nil_r |].
  rewrite Forall_forall. intros e He.
  destruct (event_origin _ _ _ _ _ Hc He) as (t0 & Hin0 & _ & Hin).
  rewrite Htasks in Hin0.
  destruct (spawned_to_do _ _ _ _ _ _ Hin0) as (url & h & _ & Htd).
  rewrite Htd in Hin. eapply fetch_events_not_robots; eauto.
Qed.

Lemma robots_read_for_every_path_witness :
  filter is_robots
    (log (run (world_robots "https://example.com/admin")
            (started scanner.DELAY_BETWEEN_REQUESTS
               (world_robots "https://example.com/admin")
               "https://example.com" ["x"; "admin"; "/y"] 2)
            [0; 1; 0; 1]))
  = [EvRobots 0 "https://example.com/robots.txt";
     EvRobots 1 "https://example.com/robots.txt";
     EvRobots 2 "https://example.com/robots.txt"].
Proof.
  unfold started.
  destruct (scan_start scanner.DELAY_BETWEEN_REQUESTS
              (world_robots "https://example.com/admin")
              "https://example.com" ["x"; "admin"; "/y"] 2)
    as [st0 | e] eqn:Hstart; [| vm_compute in Hstart; discriminate].
  apply (robots_read_for_every_path _ _ _ _ _ _ _ Hstart).
  vm_compute. reflexivity.
Defined.

(** ** The user agent of a path *)

Lemma choose_user_agent_in w i : In (choose_user_agent w i) USER_AGENTS.
Proof.
  unfold choose_user_agent. apply nth_In.
  apply Nat.mod_upper_bound. discriminate.
Qed.

(** X7.  Every request carries a user agent of [USER_AGENTS], drawn once for
    its path: the retry of a path goes out under the user agent of its first
    request. *)
Theorem one_user_agent_per_path delay w base_url paths concurrency st0 :
  scan_start delay w base_url paths concurrency = Ok st0 ->
  forall sched k url headers,
    In (EvSend k url headers) (log (run w st0 sched)) ->
    headers = choose_user_agent w k /\ In headers USER_AGENTS.
Proof.
  intros Hstart sched k url headers Hin.
  destruct (log_event _ _ _ _ _ _ _ _ Hstart Hin)
    as [[u Hu] | [(k' & p & u & _ & _ & _ & He)
                 | (k' & p & u & _ & _ & _ & He)]];
    try discriminate.
  destruct (fetch_events_event _ _ _ _ _ _ He) as (Hid & Hs & _).
  simpl in Hid. subst k'. destruct (Hs _ _ eq_refl) as [_ ->].
  split; [reflexivity | apply choose_user_agent_in].
Qed.

Lemma one_user_agent_per_path_witness :
  "curl/8.0.1" = choose_user_agent world_flaky 0
  /\ In "curl/8.0.1" USER_AGENTS.
Proof.
  assert (Hin : In (EvSend 0 "https://example.com/x" "curl/8.0.1")
                   (log (run world_flaky
                           (started scanner.DELAY_BETWEEN_REQUESTS world_flaky
                              "https://example.com" ["x"] 2)
                           [0; 0; 0; 0; 0; 0])))
    by (vm_compute; auto 10).
  unfold started in Hin.
  destruct (scan_start scanner.DELAY_BETWEEN_REQUESTS world_flaky
              "https://example.com" ["x"] 2) as [st0 | e] eqn:Hstart;
    [| vm_compute in Hstart; discriminate].
  apply (one_user_agent_per_path _ _ _ _ _ _ Hstart _ _ _ _ Hin).
Defined.

(** ** Requests and outcomes of a path, at any moment *)

Lemma gate_log_ids w base_url paths : forall i e,
  In e (gate_log w base_url i paths) -> i <= ev_id e.
Proof.
  induction paths as [| p rest IH]; simpl; intros i e H; [tauto |].
  destruct (resolve base_url p) as [url |]; [| destruct H].
  apply in_app_or in H. destruct H as [H | H].
  - destruct (robots_gate_total w i base_url p) as (_ & _ & _ & Hall).
    rewrite Forall_forall in Hall. destruct (Hall e H) as [u ->]. simpl. lia.
  - apply in_app_or in H. destruct H as [H | H].
    + destruct (allowed w base_url i p); [destruct H |].
      destruct H as [<- | []]. simpl. lia.
    + apply IH in H. lia.
Qed.

Lemma history_none k l :
  Forall (fun e => ev_id e <> k) l -> history k l = [].
Proof.
  intros H. unfold history. apply filter_none.
  rewrite Forall_forall in *. intros e He. unfold of_task.
  apply Nat.eqb_neq. auto.
Qed.

Lemma history_app k l1 l2 : history k (l1 ++ l2) = history k l1 ++ history k l2.
Proof. unfold history. apply filter_app. Qed.

Lemma appended_robots l :
  Forall (fun ev => is_robots ev = true) l -> appended l = [].
Proof.
  induction 1 as [| e l He _ IH]; simpl; auto.
  destruct e; try discriminate. exact IH.
Qed.

Lemma gate_log_no_send w base_url paths i :
  count_sends (gate_log w base_url i paths) = 0.
Proof.
  unfold count_sends. rewrite filter_none; [reflexivity |].
  rewrite Forall_forall. intros e He.
  destruct (gate_log_event _ _ _ _ _ He)
    as [[u ->] | (k & p & url & _ & _ & _ & ->)]; reflexivity.
Qed.

Lemma count_sends_app l1 l2 :
  count_sends (l1 ++ l2) = count_sends l1 + count_sends l2.
Proof. unfold count_sends. now rewrite filter_app, length_app. Qed.

Lemma count_sends_history k l : count_sends (history k l) <= count_sends l.
Proof.
  unfold count_sends, history. induction l as [| e l IH]; simpl; auto.
  destruct (of_task k e); simpl; destruct (is_send e); simpl; lia.
Qed.

Lemma count_sends_fetch_events delay w i url headers :
  count_sends (fetch_events delay w i url headers) <= 2.
Proof.
  unfold count_sends, fetch_events, settle. simpl.
  destruct (classify (http w i 0)); simpl;
    destruct (http w i 0); simpl; try lia;
    destruct (http w i 1); simpl; lia.
Qed.

(** The skip of the [k]-th path is the only outcome that the loop can have
    recorded for it, and it has recorded none for a path that has a task. *)
Lemma gate_log_appends delay w base_url paths : forall i k,
  List.length (appended (history k (gate_log w base_url i paths))) <= 1
  /\ (In k (map t_id (spawned delay w base_url i paths)) ->
      appended (history k (gate_log w base_url i paths)) = []).
Proof.
  induction paths as [| p rest IH]; simpl; intros i k; [split; auto |].
  destruct (resolve base_url p) as [url |]; simpl; [| split; auto].
  rewrite !history_app, !appended_app.
  assert (Hrob : appended (history k (snd (can_fetch_robots w i base_url p)))
                 = []).
  { apply appended_robots.
    destruct (robots_gate_total w i base_url p) as (_ & _ & _ & Hall).
    rewrite Forall_forall in *. intros e He. unfold history in He.
    apply filter_In in He. destruct He as [He _].
    destruct (Hall e He) as [u ->]. reflexivity. }
  rewrite Hrob. simpl.
  destruct (IH (S i) k) as [Hle Hzero].
  assert (Hlow : k <= i ->
                 appended (history k (gate_log w base_url (S i) rest)) = []).
  { intros Hk. rewrite history_none; [reflexivity |].
    rewrite Forall_forall. intros e He. apply gate_log_ids in He. lia. }
  destruct (allowed w base_url i p); simpl.
  - split; [exact Hle |]. intros [<- | Hin]; auto.
  - unfold of_task. cbn [ev_id].
    destruct (Nat.eqb_spec i k) as [-> | Hne]; cbn [appended app].
    + rewrite Hlow by lia. split; [simpl; lia |].
      intros Hin. rewrite in_map_iff in Hin. destruct Hin as (t & Hid & Hin).
      apply spawned_ids_ge in Hin. lia.
    + split; [exact Hle | exact Hzero].
Qed.

(** X8.  At every moment of a scan, at most two requests have been sent and
    at most one outcome has been recorded for any path. *)
Theorem never_more_than_two_requests delay w base_url paths concurrency st0 :
  scan_start delay w base_url paths concurrency = Ok st0 ->
  forall sched k,
    sends_of k (log (run w st0 sched)) <= 2
    /\ appends_of k (log (run w st0 sched)) <= 1.
Proof.
  intros Hstart sched k.
  pose proof (scan_start_spec _ _ _ _ _ _ Hstart)
    as (_ & _ & _ & Htasks & Hlog & _).
  destruct (scan_state _ _ _ _ _ _ sched Hstart) as ((tl & Hc) & _).
  pose proof Hc as (Hl & _ & _ & Hev & Hhist).
  unfold sends_of, appends_of.
  rewrite Hl, Hlog, history_app, count_sends_app, appended_app, length_app.
  pose proof (count_sends_history k (gate_log w base_url 0 paths)) as Hg.
  rewrite gate_log_no_send in Hg.
  destruct (gate_log_appends delay w base_url paths 0 k) as [Hle Hzero].
  destruct (in_dec Nat.eq_dec k (map t_id (tasks st0))) as [Hin | Hnot].
  - rewrite <- Htasks in Hzero. rewrite (Hzero Hin). simpl.
    rewrite in_map_iff in Hin. destruct Hin as (t0 & Hid & Hin0).
    destruct (In_nth_error _ _ Hin0) as [j Hj].
    destruct (Hhist j t0 Hj) as (t & _ & Hh). rewrite Hid in Hh.
    rewrite Htasks in Hin0.
    destruct (spawned_to_do _ _ _ _ _ _ Hin0) as (url & h & _ & Htd).
    rewrite Htd in Hh.
    pose proof (count_sends_fetch_events delay w (t_id t0) url h) as Hs.
    pose proof (pending_fetch_events delay w (t_id t0) url h) as Hp.
    rewrite <- Hh in Hs, Hp.
    rewrite count_sends_app in Hs. rewrite appended_app, length_app in Hp.
    lia.
  - rewrite (history_none k tl).
    + change (count_sends []) with 0. cbn [appended List.length]. lia.
    + rewrite Forall_forall in *. intros e He Heq.
      apply Hnot. rewrite <- Heq. auto.
Qed.

Lemma never_more_than_two_requests_witness :
  sends_of 0
    (log (run world_flaky
            (started scanner.DELAY_BETWEEN_REQUESTS world_flaky
               "https://example.com" ["x"] 2)
            [0; 0; 0; 0; 0; 0; 0; 0])) <= 2.
Proof.
  unfold started.
  destruct (scan_start scanner.DELAY_BETWEEN_REQUESTS world_flaky
              "https://example.com" ["x"] 2) as [st0 | e] eqn:Hstart;
    [| vm_compute in Hstart; discriminate].
  apply (never_more_than_two_requests _ _ _ _ _ _ Hstart).
Defined.

(** ** Trailing and leading slashes *)

Lemma rstrip_by_app_one (p : ascii -> bool) (c : ascii) : forall s,
  p c = true ->
  Str.rstrip_by p (s ++ String c EmptyString)%string = Str.rstrip_by p s.
Proof.
  intros s Hc. induction s as [| a s IH]; simpl.
  - now rewrite Hc.
  - now rewrite IH.
Qed.

(** X9.  The URL of a path does not depend on slashes at the end of the base
    URL nor on slashes at the start of the path: [resolve] gives the same
    result with one more of either. *)
Theorem resolve_ignores_boundary_slashes base_url p :
  resolve (base_url ++ "/")%string p = resolve base_url p
  /\ resolve base_url (String "/" p) = resolve base_url p.
Proof.
  unfold resolve, Str.rstrip, Str.lstrip. split.
  - now rewrite rstrip_by_app_one.
  - reflexivity.
Qed.

(** ** The headers of a Success record *)

Lemma dict_get_set k k' v d :
  dict_get k (dict_set k' v d)
  = if String.eqb k' k then Some v else dict_get k d.
Proof.
  induction d as [| [k0 v0] d IH]; simpl.
  - reflexivity.
  - destruct (String.eqb_spec k0 k') as [-> | Hne]; simpl.
    + now destruct (String.eqb k' k).
    + rewrite IH. destruct (String.eqb_spec k0 k) as [-> | Hne'];
        destruct (String.eqb_spec k' k) as [-> | Hne'']; congruence.
Qed.

Lemma dict_set_keys k v d :
  NoDup (map fst d) ->
  NoDup (map fst (dict_set k v d))
  /\ forall x, In x (map fst (dict_set k v d)) -> x = k \/ In x (map fst d).
Proof.
  induction d as [| [k0 v0] d IH]; simpl; intros Hnd.
  - split; [repeat constructor; auto | intros x [<- | []]; auto].
  - inversion Hnd as [| ? ? Hnot Hnd']; subst.
    destruct (String.eqb_spec k0 k) as [-> | Hne]; simpl.
    + split; [constructor; auto | intros x [<- | H]; auto].
    + destruct (IH Hnd') as [Hnd'' Hin]. split.
      * constructor; auto. intros H. destruct (Hin _ H); congruence.
      * intros x [<- | H]; auto. destruct (Hin _ H); auto.
Qed.

Lemma dict_get_app k d1 d2 :
  dict_get k (d1 ++ d2)
  = match dict_get k d1 with
    | Some v => Some v
    | None => dict_get k d2
    end.
Proof.
  induction d1 as [| [k0 v0] d1 IH]; simpl; auto.
  now destruct (String.eqb k0 k).
Qed.

Lemma fold_dict_set items : forall d,
  NoDup (map fst d) ->
  let d' := fold_left (fun d kv => dict_set (fst kv) (snd kv) d) items d in
  NoDup (map fst d')
  /\ forall k, dict_get k d'
               = match dict_get k (rev items) with
                 | Some v => Some v
                 | None => dict_get k d
                 end.
Proof.
  induction items as [| [k0 v0] items IH]; simpl; intros d Hnd.
  - split; auto.
  - destruct (dict_set_keys k0 v0 d Hnd) as [Hnd' _].
    destruct (IH _ Hnd') as [H1 H2]. split; [exact H1 |].
    intros k. rewrite H2, dict_get_app, dict_get_set. simpl.
    destruct (dict_get k (rev items)); [reflexivity |].
    now destruct (String.eqb k0 k).
Qed.

(** X10.  The [headers] of a Success record have no key twice, and under
    each key the value of its last occurrence among the headers of the
    response: of a header that the server sends several times, only the last
    value is kept. *)
Theorem success_headers_last_wins url resp :
  exists status reason final_url content_length server headers,
    make_info url resp
    = Success url status reason final_url content_length server headers
    /\ NoDup (map fst headers)
    /\ forall k, dict_get k headers = dict_get k (rev (resp_headers resp)).
Proof.
  unfold make_info. do 6 eexists. split; [reflexivity |].
  destruct (fold_dict_set (resp_headers resp) [] (NoDup_nil _)) as [H1 H2].
  split; [exact H1 |]. intros k. unfold dict_of_items. rewrite H2. simpl.
  now destruct (dict_get k (rev (resp_headers resp))).
Qed.

(** ** [strip()] *)

Lemma lstrip_by_head p s :
  match Str.lstrip_by p s with
  | String a _ => p a = false
  | EmptyString => True
  end.
Proof.
  induction s as [| a s IH]; simpl; auto.
  destruct (p a) eqn:Ha; simpl; auto.
Qed.

Lemma lstrip_by_fixed p s :
  match s with
  | String a _ => p a = false
  | EmptyString => True
  end ->
  Str.lstrip_by p s = s.
Proof.
  destruct s as [| a s]; simpl; auto. now intros ->.
Qed.

Lemma rstrip_by_head p s :
  match Str.rstrip_by p s, s with
  | String a _, String b _ => a = b
  | String _ _, EmptyString => False
  | EmptyString, _ => True
  end.
Proof.
  destruct s as [| a s]; simpl; auto.
  destruct (Str.rstrip_by p s); [destruct (p a) |]; auto.
Qed.

Lemma rstrip_by_idem p s :
  Str.rstrip_by p (Str.rstrip_by p s) = Str.rstrip_by p s.
Proof.
  induction s as [| a s IH]; simpl; auto.
  destruct (Str.rstrip_by p s) as [| b r] eqn:Hr.
  - destruct (p a) eqn:Ha; simpl; auto. now rewrite Ha.
  - simpl. simpl in IH. now rewrite IH.
Qed.

Lemma lstrip_rstrip_fixed p t :
  match t with
  | String a _ => p a = false
  | EmptyString => True
  end ->
  Str.lstrip_by p (Str.rstrip_by p t) = Str.rstrip_by p t.
Proof.
  intros Ht. apply lstrip_by_fixed.
  pose proof (rstrip_by_head p t) as Hh.
  destruct (Str.rstrip_by p t) as [| a r]; [exact I |].
  destruct t as [| b t']; [destruct Hh |]. now subst.
Qed.

Lemma strip_idem s : stripped (Str.strip s).
Proof.
  unfold stripped, Str.strip.
  rewrite lstrip_rstrip_fixed by apply lstrip_by_head.
  apply rstrip_by_idem.
Qed.

(** ** The paths of a request *)

(** X11.  The paths that [api_scan] takes from a request are the stripped
    forms of its non-empty string entries: every one is free of white space
    at both ends, none is added, and none is left exactly when every entry is
    empty or not a string. *)
Theorem sanitize_keeps_stripped_strings user_paths :
  Forall stripped (sanitize user_paths)
  /\ (forall p, In p (sanitize user_paths) ->
        exists q, In (Some q) user_paths /\ q <> "" /\ p = Str.strip q)
  /\ List.length (sanitize user_paths) <= List.length user_paths
  /\ (sanitize user_paths = [] <-> Forall unusable user_paths).
Proof.
  induction user_paths as [| e l (IH1 & IH2 & IH3 & IH4)].
  - simpl. split; [constructor |]. split; [intros p [] |].
    split; [lia |]. split; [constructor | reflexivity].
  - assert (Hdrop : forall p, In p (sanitize l) ->
              exists q, In (Some q) (e :: l) /\ q <> "" /\ p = Str.strip q).
    { intros p Hp. destruct (IH2 p Hp) as (q' & H1 & H2 & H3).
      exists q'. split; [now right | auto]. }
    destruct e as [[| a q] |]; cbn [sanitize Str.nonempty List.length].
    + split; [exact IH1 |]. split; [exact Hdrop |]. split; [lia |]. split.
      * intros H. constructor; [right; reflexivity | now apply IH4].
      * intros H. inversion H; subst. now apply IH4.
    + split; [constructor; [apply strip_idem | exact IH1] |]. split.
      { intros p [<- | Hp]; [| now apply Hdrop].
        exists (String a q). split; [now left |].
        split; [discriminate | reflexivity]. }
      split; [lia |]. split; [discriminate |].
      intros H. inversion H as [| ? ? [Hu | Hu] _]; discriminate.
    + split; [exact IH1 |]. split; [exact Hdrop |]. split; [lia |]. split.
      * intros H. constructor; [left; reflexivity | now apply IH4].
      * intros H. inversion H; subst. now apply IH4.
Qed.

Lemma sanitize_unusable user_paths :
  Forall unusable user_paths -> sanitize user_paths = [].
Proof.
  induction 1 as [| e l [-> | ->] _ IH]; simpl; auto.
Qed.

(** X12.  A request that asks for its own paths and gives none that can be
    used is answered with an empty result and [checked] 0, whatever the world
    and the schedule: the default list does not step in, and nothing is
    requested. *)
Theorem api_scan_without_usable_path w data target user_paths sched :
  j_target data = Some target ->
  Str.nonempty target = true ->
  j_use_default data = Some false ->
  j_paths data = Some user_paths ->
  user_paths <> [] ->
  Forall unusable user_paths ->
  api_scan w data sched = Json200 [] 0.
Proof.
  intros Ht Hne Hud Hp Hnil Hall.
  assert (Hpaths : api_paths data = []).
  { unfold api_paths. rewrite Hud, Hp.
    destruct user_paths as [| e l]; [congruence |].
    now apply sanitize_unusable. }
  unfold api_scan. rewrite Ht, Hne, Hpaths. cbn [negb].
  unfold scan_target, scan_start.
  assert (Hc : (1 <= api_concurrency data)%Z)
    by (unfold api_concurrency, clamp_concurrency; lia).
  destruct (Z.ltb_spec (api_concurrency data) 0) as [Hlt | _]; [lia |].
  cbn [scan_loop]. rewrite run_no_tasks by reflexivity.
  reflexivity.
Qed.

Lemma api_scan_without_usable_path_witness :
  api_scan world_up
    (mk_json (Some "example.com") (Some false) (Some [Some ""; None]) None)
    [0; 1]
  = Json200 [] 0.
Proof.
  apply (api_scan_without_usable_path world_up
           (mk_json (Some "example.com") (Some false) (Some [Some ""; None]) None)
           "example.com" [Some ""; None] [0; 1]);
    try reflexivity.
  - discriminate.
  - constructor; [right; reflexivity |].
    constructor; [left; reflexivity | constructor].
Defined.

(** ** The wordlist file and the command line *)

Lemma keep_line_spec l :
  keep_line l = true <->
  Str.strip l <> "" /\ Str.startswith "#" l = false.
Proof.
  unfold keep_line. rewrite andb_true_iff, negb_true_iff.
  destruct (Str.strip l); simpl; split; intros [H1 H2]; split;
    auto; try discriminate; congruence.
Qed.

Lemma wordlist_no_empty_entry fs path wl :
  load_wordlist_from_file fs path = Some wl -> Forall (fun p => p <> "") wl.
Proof.
  unfold load_wordlist_from_file.
  destruct (fs path) as [lines | e]; [| discriminate].
  intros H. inversion H; subst wl.
  rewrite Forall_forall. intros p Hp. rewrite in_map_iff in Hp.
  destruct Hp as (l & <- & Hl). apply filter_In in Hl.
  destruct Hl as [_ Hk]. now apply keep_line_spec in Hk.
Qed.

(** X13.  The wordlist that [load_wordlist_from_file] returns holds, in the
    order of the file, the stripped form of every line that is not blank and
    does not start with [#], and nothing else: no entry is empty or has
    white space at an end.  A line with white space before its [#] is not a
    comment and is kept. *)
Theorem wordlist_entries fs path wl :
  load_wordlist_from_file fs path = Some wl ->
  exists lines,
    fs path = Ok lines
    /\ Forall (fun p => p <> "" /\ stripped p) wl
    /\ (forall p, In p wl <->
          exists l, In l lines /\ p = Str.strip l /\ Str.strip l <> ""
                    /\ Str.startswith "#" l = false)
    /\ List.length wl <= List.length lines.
Proof.
  unfold load_wordlist_from_file.
  destruct (fs path) as [lines | e]; [| discriminate].
  intros H. inversion H; subst wl. exists lines.
  pose proof keep_line_spec as Hkeep.
  split; [reflexivity |]. split; [| split].
  - rewrite Forall_forall. intros p Hp. rewrite in_map_iff in Hp.
    destruct Hp as (l & <- & Hl). apply filter_In in Hl.
    destruct Hl as [_ Hk]. apply Hkeep in Hk.
    split; [tauto | apply strip_idem].
  - intros p. rewrite in_map_iff. split.
    + intros (l & <- & Hl). apply filter_In in Hl. destruct Hl as [Hin Hk].
      apply Hkeep in Hk. exists l. tauto.
    + intros (l & Hin & -> & H1 & H2). exists l. split; auto.
      apply filter_In. split; auto. apply Hkeep. auto.
  - rewrite length_map. apply filter_length_le.
Qed.

Lemma wordlist_entries_witness :
  exists lines,
    sample_fs "words.txt" = Ok lines
    /\ Forall (fun p => p <> "" /\ stripped p) ["admin"; "#hidden"; "api/"]
    /\ (forall p, In p ["admin"; "#hidden"; "api/"] <->
          exists l, In l lines /\ p = Str.strip l /\ Str.strip l <> ""
                    /\ Str.startswith "#" l = false)
    /\ List.length ["admin"; "#hidden"; "api/"] <= List.length lines.
Proof.
  apply (wordlist_entries sample_fs "words.txt" ["admin"; "#hidden"; "api/"]).
  reflexivity.
Defined.

Lemma main_paths_nonempty fs argv : fst (main_paths fs argv) <> [].
Proof.
  unfold main_paths. destruct (nth_error argv 2) as [f |]; [| discriminate].
  destruct (Str.nonempty f); [| discriminate].
  destruct (load_wordlist_from_file fs f) as [[| p wl] |]; discriminate.
Qed.

Lemma default_wordlist_entries : Forall (fun p => p <> "") DEFAULT_WORDLIST.
Proof. unfold DEFAULT_WORDLIST. repeat (constructor; [discriminate |]). constructor. Qed.

(** X14.  The command line never scans nothing: the paths of [main] are the
    entries of the wordlist file when the file can be read and has an entry,
    and the default list in every other case (no file given, a file that
    cannot be read, a file without entries); they are never an empty list
    and never hold an empty path. *)
Theorem main_never_scans_nothing fs argv :
  let paths := fst (main_paths fs argv) in
  paths <> []
  /\ Forall (fun p => p <> "") paths
  /\ (paths = DEFAULT_WORDLIST
      \/ exists f, nth_error argv 2 = Some f /\ f <> ""
                   /\ load_wordlist_from_file fs f = Some paths).
Proof.
  intros paths. split; [apply main_paths_nonempty |].
  unfold paths, main_paths.
  destruct (nth_error argv 2) as [f |];
    [| split; [apply default_wordlist_entries | now left]].
  destruct (Str.nonempty f) eqn:Hf;
    [| split; [apply default_wordlist_entries | now left]].
  destruct (load_wordlist_from_file fs f) as [[| p wl] |] eqn:Hl; simpl;
    try (split; [apply default_wordlist_entries | now left]).
  split; [eapply wordlist_no_empty_entry; eauto |].
  right. exists f. repeat split; auto. intros ->. discriminate.
Qed.

Lemma returned_length delay w base_url paths concurrency sched rs :
  scan_target delay w base_url paths concurrency sched = Returned rs ->
  List.length rs = List.length paths.
Proof.
  unfold scan_target.
  destruct (scan_start delay w base_url paths concurrency) as [st0 | e]
    eqn:Hstart; [| discriminate].
  destruct (finished (run w st0 sched)) eqn:Hfin; [| discriminate].
  intros H. inversion H; subst.
  rewrite (Permutation_length (finished_results _ _ _ _ _ _ _ Hstart Hfin)).
  apply expected_length. apply (scan_start_spec _ _ _ _ _ _ Hstart).
Qed.

(** X15.  When [main] gets to its last message, the number of paths it
    reports is the number of results it has, and at least 1; it scans only
    when a target is given on the command line. *)
Theorem main_completed fs w argv sched rs checked :
  main fs w argv sched = Completed rs checked ->
  List.length rs = checked /\ 1 <= checked /\ 2 <= List.length argv.
Proof.
  unfold main. destruct argv as [| prog [| base_url rest]]; try discriminate.
  destruct (scan_target scanner.DELAY_BETWEEN_REQUESTS w base_url
              (fst (main_paths fs (prog :: base_url :: rest)))
              CONCURRENCY sched) as [rs' | e | st] eqn:Hscan; try discriminate.
  intros H. inversion H; subst.
  split; [now apply returned_length in Hscan |].
  split; [| simpl; lia].
  pose proof (main_paths_nonempty fs (prog :: base_url :: rest)) as Hne.
  destruct (fst (main_paths fs (prog :: base_url :: rest))); [congruence |].
  simpl. lia.
Qed.

Lemma main_completed_witness :
  List.length [make_info "https://example.com/admin" ok_response] = 1
  /\ 1 <= 1 /\ 2 <= 3.
Proof.
  apply (main_completed sample_fs world_up
           ["scanner.py"; "https://example.com"; "one.txt"]
           [0; 0; 0; 0; 0; 0; 0]
           [make_info "https://example.com/admin" ok_response] 1).
  vm_compute. reflexivity.
Defined.

(** ** A host that is down *)

Lemma set_nth_length {A : Type} (l : list A) : forall j x,
  List.length (set_nth j x l) = List.length l.
Proof.
  induction l as [| a l IH]; intros [| j] x; simpl; auto.
Qed.

(** One turn of a task that can move. *)
Lemma advance w st j t e rest :
  nth_error (tasks st) j = Some t ->
  task_to_do w t = e :: rest ->
  is_acquire e = false \/ 0 < sem st ->
  exists t',
    nth_error (tasks (run w st [j])) j = Some t'
    /\ task_to_do w t' = rest
    /\ t_id t' = t_id t
    /\ sem_effect e (sem st) (sem (run w st [j])) (t_held t) (t_held t')
    /\ (forall j', j' <> j ->
          nth_error (tasks (run w st [j])) j' = nth_error (tasks st) j')
    /\ List.length (tasks (run w st [j])) = List.length (tasks st).
Proof.
  intros Hn Htd Hen.
  destruct (exec_enabled w (sem st) t e rest Htd Hen) as (v' & t' & os & He).
  pose proof (exec_spec _ _ _ _ _ _ _ He) as (Htd' & Hid & _ & _ & Heff).
  simpl. unfold step. rewrite Hn, He. simpl.
  exists t'. split; [eapply nth_error_set_nth_eq; eauto |].
  split; [congruence |]. split; [exact Hid |]. split; [exact Heff |].
  split; [| apply set_nth_length].
  intros j' Hne. apply nth_error_set_nth_neq. auto.
Qed.

Lemma waits_blocked w t : waits_for_slot w t -> exec w 0 t = None.
Proof.
  intros [rest H]. unfold task_to_do in H. unfold exec.
  destruct (t_code t); simpl in H; try discriminate. reflexivity.
Qed.

Lemma waits_not_returned w t : waits_for_slot w t -> returned t = false.
Proof.
  intros [rest H]. unfold task_to_do in H. unfold returned.
  destruct (t_code t); simpl in H; try discriminate; reflexivity.
Qed.

(** The first four turns of a task whose request fails at transport level:
    it ends up at [async with sem] again, with its first slot in hand. *)
Lemma first_attempt_fails delay w st j t url headers v :
  nth_error (tasks st) j = Some t ->
  t_held t = 0 ->
  task_to_do w t = fetch_events delay w (t_id t) url headers ->
  retrying w (t_id t) = 1 ->
  sem st = S v ->
  let st' := run w st [j; j; j; j] in
  sem st' = v
  /\ (exists t', nth_error (tasks st') j = Some t'
                 /\ t_held t' = 1 /\ waits_for_slot w t')
  /\ (forall j', j' <> j -> nth_error (tasks st') j' = nth_error (tasks st) j')
  /\ List.length (tasks st') = List.length (tasks st).
Proof.
  intros Hn Hh Htd Hretry Hsem. cbv zeta.
  unfold retrying in Hretry. unfold fetch_events in Htd.
  destruct (classify (http w (t_id t) 0)); try discriminate. simpl in Htd.
  change [j; j; j; j] with ([j] ++ [j] ++ [j] ++ [j]).
  rewrite !run_app.
  destruct (advance w st j t _ _ Hn Htd) as (t1 & Hn1 & Htd1 & Hid1 & He1 & Ho1 & Hl1);
    [right; lia |].
  destruct (advance w _ j t1 _ _ Hn1 Htd1) as (t2 & Hn2 & Htd2 & Hid2 & He2 & Ho2 & Hl2);
    [now left |].
  destruct (advance w _ j t2 _ _ Hn2 Htd2) as (t3 & Hn3 & Htd3 & Hid3 & He3 & Ho3 & Hl3);
    [now left |].
  destruct (advance w _ j t3 _ _ Hn3 Htd3) as (t4 & Hn4 & Htd4 & Hid4 & He4 & Ho4 & Hl4);
    [now left |].
  cbn [sem_effect] in He1, He2, He3, He4.
  split; [lia |]. split; [| split].
  - exists t4. split; [exact Hn4 |]. split; [lia |].
    unfold waits_for_slot. rewrite Htd4.
    replace (t_id t4) with (t_id t) by congruence. eauto.
  - intros j' Hne. rewrite Ho4, Ho3, Ho2, Ho1; auto.
  - congruence.
Qed.

Lemma storm_succ n : storm (S n) = storm n ++ [n; n; n; n].
Proof.
  unfold storm. rewrite seq_S, flat_map_app. simpl. reflexivity.
Qed.

Lemma deadlocked_stays w st :
  deadlocked w st -> forall sched, run w st sched = st.
Proof.
  intros [_ Hnone]. induction sched as [| j rest IH]; simpl; auto.
  now rewrite Hnone.
Qed.

(** After the storm over the first [n] tasks, these wait for a second slot
    and the others have not moved. *)
Lemma after_storm delay w base_url paths concurrency st0 n :
  scan_start delay w base_url paths concurrency = Ok st0 ->
  n <= Z.to_nat concurrency ->
  (forall j, j < n ->
     exists t0, nth_error (tasks st0) j = Some t0 /\ retrying w (t_id t0) = 1) ->
  let st := run w st0 (storm n) in
  sem st + n = Z.to_nat concurrency
  /\ (forall j, j < n ->
        exists t, nth_error (tasks st) j = Some t /\ waits_for_slot w t)
  /\ (forall j, n <= j -> nth_error (tasks st) j = nth_error (tasks st0) j)
  /\ List.length (tasks st) = List.length (tasks st0).
Proof.
  intros Hstart.
  pose proof (scan_start_spec _ _ _ _ _ _ Hstart) as (_ & Hsem & _ & Ht & _).
  induction n as [| n IH]; intros Hn Hretry.
  - cbv zeta. change (storm 0) with (@nil nat). cbn [run].
    split; [lia |]. split; [intros j Hj; lia |]. split; auto.
  - cbv zeta in *.
    destruct IH as (Hs & Hw & Ho & Hlen); [lia | intros j Hj; apply Hretry; lia |].
    destruct (Hretry n) as (t0 & Hn0 & Hr0); [lia |].
    assert (Hin0 : In t0 (spawned delay w base_url 0 paths)).
    { rewrite <- Ht. eapply nth_error_In; eauto. }
    destruct (spawned_to_do _ _ _ _ _ _ Hin0) as (url & h & Hh & Htd).
    rewrite <- Ho in Hn0 by lia.
    assert (Hv : sem (run w st0 (storm n)) = S (Z.to_nat concurrency - S n))
      by lia.
    destruct (first_attempt_fails delay w _ n t0 url h _ Hn0 Hh Htd Hr0 Hv)
      as (Hs' & (t' & Hn' & _ & Hw') & Ho' & Hlen').
    rewrite storm_succ, run_app.
    split; [lia |]. split; [| split].
    + intros j Hj. destruct (Nat.eq_dec j n) as [-> | Hne]; [eauto |].
      rewrite Ho' by auto. apply Hw. lia.
    + intros j Hj. rewrite Ho' by lia. apply Ho. lia.
    + congruence.
Qed.

(** X16.  When the first requests of as many tasks as there are slots fail
    at transport level (a host that is down), and the tasks run in the order
    in which they were started, every one of them waits for a second slot
    with its first in hand: no task can move any more, and the scan never
    returns, whatever follows. *)
Theorem retry_storm_deadlocks delay w base_url paths concurrency st0 :
  scan_start delay w base_url paths concurrency = Ok st0 ->
  (1 <= concurrency)%Z ->
  (forall j, j < Z.to_nat concurrency ->
     exists t0, nth_error (tasks st0) j = Some t0 /\ retrying w (t_id t0) = 1) ->
  deadlocked w (run w st0 (storm (Z.to_nat concurrency)))
  /\ forall sched, exists st,
       scan_target delay w base_url paths concurrency
         (storm (Z.to_nat concurrency) ++ sched) = Running st.
Proof.
  intros Hstart Hc Hretry.
  destruct (after_storm _ _ _ _ _ _ (Z.to_nat concurrency) Hstart
              (Nat.le_refl _) Hretry) as (Hs & Hw & Ho & Hlen).
  set (st := run w st0 (storm (Z.to_nat concurrency))) in *.
  pose proof (scan_start_spec _ _ _ _ _ _ Hstart) as (_ & _ & _ & Ht & _).
  assert (Hzero : sem st = 0) by lia.
  assert (Hall : forall j t, nth_error (tasks st) j = Some t ->
                   waits_for_slot w t).
  { intros j t Hj. destruct (Nat.lt_ge_cases j (Z.to_nat concurrency)) as [Hlt | Hge].
    - destruct (Hw j Hlt) as (t' & Hn' & Hw'). congruence.
    - rewrite Ho in Hj by auto.
      assert (Hin : In t (spawned delay w base_url 0 paths)).
      { rewrite <- Ht. eapply nth_error_In; eauto. }
      destruct (spawned_to_do _ _ _ _ _ _ Hin) as (url & h & _ & Htd).
      unfold waits_for_slot. rewrite Htd. unfold fetch_events. simpl. eauto. }
  assert (Hdead : deadlocked w st).
  { split.
    - destruct (Hw 0) as (t & Hn & Hwt); [lia |].
      unfold finished. destruct (tasks st) as [| t' l]; [discriminate |].
      simpl in Hn. inversion Hn; subst. simpl.
      now rewrite (waits_not_returned w t Hwt).
    - intros j. unfold step.
      destruct (nth_error (tasks st) j) as [t |] eqn:Hj; [| reflexivity].
      rewrite Hzero, (waits_blocked w t (Hall j t Hj)). reflexivity. }
  split; [exact Hdead |].
  intros sched. unfold scan_target. rewrite Hstart, run_app. fold st.
  rewrite (deadlocked_stays w st Hdead). destruct Hdead as [-> _]. eauto.
Qed.

Lemma retry_storm_deadlocks_witness :
  exists st,
    scan_target scanner.DELAY_BETWEEN_REQUESTS world_down
      "https://example.com" ["a"; "b"; "c"] 2
      (storm (Z.to_nat 2) ++ [2; 0; 1]) = Running st.
Proof.
  assert (Hretry : forall j, j < Z.to_nat 2 ->
            exists t0,
              nth_error
                (tasks (started scanner.DELAY_BETWEEN_REQUESTS world_down
                          "https://example.com" ["a"; "b"; "c"] 2)) j = Some t0
              /\ retrying world_down (t_id t0) = 1).
  { intros [| [| j]] Hj; [eexists; split; vm_compute; reflexivity .. |].
    vm_compute in Hj. lia. }
  unfold started in Hretry.
  destruct (scan_start scanner.DELAY_BETWEEN_REQUESTS world_down
              "https://example.com" ["a"; "b"; "c"] 2) as [st0 | e] eqn:Hstart;
    [| vm_compute in Hstart; discriminate].
  assert (Hc : (1 <= 2)%Z) by lia.
  apply (retry_storm_deadlocks _ _ _ _ _ _ Hstart Hc Hretry).
Defined.

(** ** The error answers of the front end *)

Lemma api_concurrency_pos data : (1 <= api_concurrency data)%Z.
Proof. unfold api_concurrency, clamp_concurrency. lia. Qed.

Lemma scan_target_raised delay w base_url paths concurrency sched e :
  (0 <= concurrency)%Z ->
  scan_target delay w base_url paths concurrency sched = Raised e ->
  exists p, In p paths /\ resolve base_url p = Raise e.
Proof.
  intros Hc. unfold scan_target, scan_start.
  destruct (Z.ltb_spec concurrency 0) as [Hlt | _]; [lia |].
  destruct (scan_loop delay w base_url 0 paths
              (mk_state (Z.to_nat concurrency) [] [] [])) as [st0 | e'] eqn:Hl.
  - destruct (finished (run w st0 sched)); discriminate.
  - intros H. inversion H; subst. apply scan_loop_raises in Hl.
    destruct Hl as (pre & p & post & -> & _ & Hr).
    exists p. split; [apply in_or_app; right; now left | exact Hr].
Qed.

(** X17.  The error answers of [api_scan] to the requests that [scan_json]
    describes: a JSON object whose target is a string, whose paths are a
    list and whose concurrency is an integer, where they are given.  To
    such a request it answers 400 exactly when the target is absent, null
    or empty.  It answers 500 only when a path of the chosen list does not
    resolve against the normalised target, with the message of that error:
    since the concurrency has been clamped, the semaphore never refuses its
    initial value.  (A request outside [scan_json], such as a concurrency
    that [int] rejects, gets the 500 of the framework.) *)
Theorem api_scan_error_responses w data sched :
  (forall msg, api_scan w data sched = Json400 msg <->
     msg = "target is required"%string
     /\ (j_target data = None \/ j_target data = Some ""%string))
  /\ (forall msg, api_scan w data sched = Json500 msg ->
        exists target p e,
          j_target data = Some target
          /\ In p (api_paths data)
          /\ resolve (api_target target) p = Raise e
          /\ msg = ("scan failed: " ++ exc_str e)%string).
Proof.
  unfold api_scan. destruct (j_target data) as [[| c target] |]; cbn [Str.nonempty negb].
  - split.
    + intros msg. split; [intros H; inversion H; auto | intros [-> _]; auto].
    + discriminate.
  - destruct (scan_target app.DELAY_BETWEEN_REQUESTS w
                (api_target (String c target)) (api_paths data)
                (api_concurrency data) sched) as [rs | e | st] eqn:Hscan.
    + split; [| discriminate]. intros msg.
      split; [discriminate | intros [_ [H | H]]; discriminate].
    + split.
      * intros msg. split; [discriminate | intros [_ [H | H]]; discriminate].
      * intros msg H. inversion H; subst.
        apply scan_target_raised in Hscan;
          [| pose proof (api_concurrency_pos data); lia].
        destruct Hscan as (p & Hin & Hr). exists (String c target), p, e. auto.
    + split; [| discriminate]. intros msg.
      split; [discriminate | intros [_ [H | H]]; discriminate].
  - split.
    + intros msg. split; [intros H; inversion H; auto | intros [-> _]; auto].
    + discriminate.
Qed.

(** X18.  A target without a scheme is scanned over https: the request
    answers as the same request with ["https://"] written before the
    target. *)
Theorem api_scan_default_scheme w d1 d2 target sched :
  j_target d1 = Some target ->
  target <> ""%string ->
  Str.startswith "http://" target = false ->
  Str.startswith "https://" target = false ->
  j_target d2 = Some ("https://" ++ target)%string ->
  j_use_default d2 = j_use_default d1 ->
  j_paths d2 = j_paths d1 ->
  j_concurrency d2 = j_concurrency d1 ->
  api_scan w d1 sched = api_scan w d2 sched.
Proof.
  intros H1 Hne Hhttp Hhttps H2 Hu Hp Hc.
  assert (Hpaths : api_paths d2 = api_paths d1)
    by (unfold api_paths; now rewrite Hu, Hp).
  assert (Hconc : api_concurrency d2 = api_concurrency d1)
    by (unfold api_concurrency; now rewrite Hc).
  assert (Ht1 : api_target target = ("https://" ++ target)%string)
    by (unfold api_target; now rewrite Hhttp, Hhttps).
  assert (Ht2 : api_target ("https://" ++ target)%string
                = ("https://" ++ target)%string).
  { unfold api_target, Str.startswith. destruct target; reflexivity. }
  unfold api_scan. rewrite H1, H2, Hpaths, Hconc, Ht1, Ht2.
  destruct target; [congruence | reflexivity].
Qed.

Lemma api_scan_default_scheme_witness :
  api_scan world_up (mk_json (Some "example.com"%string) None None None) [0]
  = api_scan world_up
      (mk_json (Some "https://example.com"%string) None None None) [0].
Proof.
  apply (api_scan_default_scheme world_up
           (mk_json (Some "example.com"%string) None None None)
           (mk_json (Some "https://example.com"%string) None None None)
           "example.com"%string [0]);
    try reflexivity.
  discriminate.
Defined.

(** ** C4: the retry in a run *)

Lemma nest_no_acquire evs : forall h,
  Forall (fun e => is_acquire e = false) evs -> nest h evs = 0.
Proof.
  induction evs as [| e evs IH]; intros h H; [reflexivity |].
  inversion H as [| ? ? He Hrest]; subst.
  destruct e; simpl in *; try discriminate; auto.
Qed.

(** With one slot, a task that retries has its second [async with sem]
    before it for ever. *)
Lemma retrier_keeps_waiting delay w base_url paths st0 j t0 :
  scan_start delay w base_url paths 1 = Ok st0 ->
  nth_error (tasks st0) j = Some t0 ->
  retrying w (t_id t0) = 1 ->
  forall sched, exists t,
    nth_error (tasks (run w st0 sched)) j = Some t
    /\ 1 <= nest (t_held t) (task_to_do w t).
Proof.
  intros Hstart Hj Hretry.
  assert (Hinit : 1 <= nest (t_held t0) (task_to_do w t0)).
  { pose proof (scan_start_spec _ _ _ _ _ _ Hstart) as (_ & _ & _ & Ht & _).
    assert (Hin : In t0 (spawned delay w base_url 0 paths))
      by (rewrite <- Ht; eapply nth_error_In; eauto).
    destruct (spawned_to_do _ _ _ _ _ _ Hin) as (u & h & -> & ->).
    rewrite nest_fetch_events. lia. }
  induction sched as [| j' sched IH] using rev_ind; [simpl; eauto |].
  destruct IH as (t & Hn & Hnest).
  destruct (scan_state _ _ _ _ _ _ sched Hstart) as (_ & _ & _ & Hsem & _).
  rewrite run_app. simpl.
  destruct (step w (run w st0 sched) j') as [st' |] eqn:Hs; [| eauto].
  apply step_spec in Hs.
  destruct Hs as (t1 & t1' & e & Hn1 & Ht & _ & _ & Htd & _ & _ & Heff).
  rewrite Ht. destruct (Nat.eq_dec j' j) as [-> | Hne].
  - assert (t1 = t) by congruence. subst t1.
    exists t1'. split; [eapply nth_error_set_nth_eq; eauto |].
    rewrite Htd in Hnest.
    pose proof (total_ge_nth t_held _ _ _ Hn) as Hge.
    destruct e; simpl in *; destruct Heff as [Hv ->]; lia.
  - exists t. split; [| exact Hnest].
    rewrite nth_error_set_nth_neq; auto.
Qed.

(** C4 fails on the code.  With one slot, a task whose first request fails
    at transport level never makes its retry: under every schedule, at every
    moment, at most one request has been sent for its path, no outcome has
    been recorded for it (no [client_error], no Success record), and the
    scan has not returned.  The retry is a call of [fetch] from inside the
    [async with sem] of the failed attempt, and waits for a second slot. *)
Theorem retry_is_never_sent delay w base_url paths st0 k :
  scan_start delay w base_url paths 1 = Ok st0 ->
  In k (map t_id (tasks st0)) ->
  retrying w k = 1 ->
  forall sched,
    sends_of k (log (run w st0 sched)) <= 1
    /\ appends_of k (log (run w st0 sched)) = 0
    /\ finished (run w st0 sched) = false.
Proof.
  intros Hstart Hin Hretry sched.
  pose proof (scan_start_spec _ _ _ _ _ _ Hstart)
    as (_ & _ & _ & Htasks & Hlog & _).
  pose proof Hin as Hin'.
  rewrite in_map_iff in Hin'. destruct Hin' as (t0 & Hid & Hin0).
  destruct (In_nth_error _ _ Hin0) as [j Hj]. subst k.
  destruct (retrier_keeps_waiting _ _ _ _ _ _ _ Hstart Hj Hretry sched)
    as (t & Hn & Hnest).
  destruct (scan_state _ _ _ _ _ _ sched Hstart) as ((tl & Hc) & _).
  destruct Hc as (Hl & _ & _ & _ & Hhist).
  destruct (Hhist j t0 Hj) as (t' & Hn' & Hh).
  assert (t' = t) by congruence. subst t'.
  rewrite Htasks in Hin0.
  destruct (spawned_to_do _ _ _ _ _ _ Hin0) as (url & h & _ & Htd).
  rewrite Htd in Hh. unfold retrying in Hretry. unfold fetch_events in Hh.
  destruct (classify (http w (t_id t0) 0)); try discriminate.
  set (i := t_id t0) in *.
  change ([EvAcquire i; EvSend i url h; EvRecv i (http w i 0)] ++
          [EvSleep i (5 # 10)%Q; EvAcquire i; EvSend i url h;
           EvRecv i (http w i 1)]
          ++ settle delay w i url (http w i 1) ++ [EvRelease i; EvRelease i])
    with ([EvAcquire i; EvSend i url h; EvRecv i (http w i 0);
           EvSleep i (5 # 10)%Q; EvAcquire i]
          ++ ([EvSend i url h; EvRecv i (http w i 1)]
              ++ settle delay w i url (http w i 1)
              ++ [EvRelease i; EvRelease i])) in Hh.
  assert (Hrest : Forall (fun e => is_acquire e = false)
                    ([EvSend i url h; EvRecv i (http w i 1)]
                     ++ settle delay w i url (http w i 1)
                     ++ [EvRelease i; EvRelease i])).
  { unfold settle. destruct (http w i 1); simpl; repeat constructor. }
  assert (Hdone : count_sends (history i tl) <= 1
                  /\ appended (history i tl) = []).
  { apply app_eq_app in Hh. destruct Hh as [l [[Hpre Hsuf] | [Hpre Hsuf]]].
    - exfalso. rewrite Hsuf in Hrest. apply Forall_app in Hrest.
      destruct Hrest as [_ Hno].
      rewrite (nest_no_acquire _ _ Hno) in Hnest. lia.
    - assert (Hs : count_sends (history i tl ++ l) = 1)
        by (rewrite <- Hpre; reflexivity).
      assert (Ha : appended (history i tl ++ l) = [])
        by (rewrite <- Hpre; reflexivity).
      rewrite count_sends_app in Hs. rewrite appended_app in Ha.
      apply app_eq_nil in Ha. split; [lia | tauto]. }
  destruct Hdone as [Hsends Happ].
  unfold sends_of, appends_of.
  rewrite Hl, Hlog, history_app, count_sends_app, appended_app, length_app.
  pose proof (count_sends_history i (gate_log w base_url 0 paths)) as Hg.
  rewrite gate_log_no_send in Hg.
  destruct (gate_log_appends delay w base_url paths 0 i) as [_ Hzero].
  rewrite <- Htasks in Hzero. rewrite (Hzero Hin), Happ.
  split; [lia |]. split; [reflexivity |].
  destruct (finished (run w st0 sched)) eqn:Hfin; [| reflexivity].
  rewrite (finished_to_do w _ t Hfin) in Hnest
    by (eapply nth_error_In; eauto).
  simpl in Hnest. lia.
Qed.

Lemma retry_is_never_sent_witness :
  sends_of 0
    (log (run world_down
            (started scanner.DELAY_BETWEEN_REQUESTS world_down
               "https://example.com" ["x"] 1)
            [0; 0; 0; 0; 0; 0; 0; 0])) <= 1
  /\ appends_of 0
       (log (run world_down
               (started scanner.DELAY_BETWEEN_REQUESTS world_down
                  "https://example.com" ["x"] 1)
               [0; 0; 0; 0; 0; 0; 0; 0])) = 0
  /\ finished
       (run world_down
          (started scanner.DELAY_BETWEEN_REQUESTS world_down
             "https://example.com" ["x"] 1)
          [0; 0; 0; 0; 0; 0; 0; 0]) = false.
Proof.
  assert (Hin : In 0 (map t_id
                        (tasks (started scanner.DELAY_BETWEEN_REQUESTS
                                  world_down "https://example.com" ["x"] 1))))
    by (vm_compute; auto).
  assert (Hretry : retrying world_down 0 = 1) by reflexivity.
  unfold started in *.
  destruct (scan_start scanner.DELAY_BETWEEN_REQUESTS world_down
              "https://example.com" ["x"] 1) as [st0 | e] eqn:Hstart;
    [| vm_compute in Hstart; discriminate].
  apply (retry_is_never_sent _ _ _ _ _ _ Hstart Hin Hretry).
Defined.

(** What does hold in a run: when the scan has returned, the task of every
    path has done all of what [fetch] prescribes for its responses, the
    retry and its record included. *)
Lemma returned_scan_follows_policy delay w base_url paths concurrency st0
    sched k :
  scan_start delay w base_url paths concurrency = Ok st0 ->
  finished (run w st0 sched) = true ->
  In k (map t_id (tasks st0)) ->
  exists url headers tl,
    log (run w st0 sched) = log st0 ++ tl
    /\ history k tl = fetch_events delay w k url headers.
Proof.
  intros Hstart Hfin Hin.
  pose proof (scan_start_spec _ _ _ _ _ _ Hstart) as (_ & _ & _ & Htasks & _).
  rewrite in_map_iff in Hin. destruct Hin as (t0 & Hid & Hin0).
  destruct (In_nth_error _ _ Hin0) as [j Hj]. subst k.
  destruct (scan_state _ _ _ _ _ _ sched Hstart) as ((tl & Hc) & _).
  destruct Hc as (Hl & _ & _ & _ & Hhist).
  destruct (Hhist j t0 Hj) as (t & Hn & Hh).
  rewrite Htasks in Hin0.
  destruct (spawned_to_do _ _ _ _ _ _ Hin0) as (url & h & _ & Htd).
  rewrite (finished_to_do w _ t Hfin) in Hh by (eapply nth_error_In; eauto).
  rewrite app_nil_r, Htd in Hh. eauto.
Qed.
